(** * External-id rotation lambda: a shallow embedding and its properties

    Source: [src/lambda/external-id-rotation-lambda/index.ts].

    The lambda drives the four rotation steps of a versioned secret store
    ([createSecret], [setSecret], [testSecret], [finishSecret]) and owns two
    pure helpers, [validateExternalId] and [generateSecureExternalId].

    Conventions of the embedding:
    - a JavaScript string is the list of its UTF-16 code units;
    - a [Buffer] is a list of bytes;
    - an [async] function that may throw is a computation in the monad [M]:
      it takes the world (store, entropy source, transport) and returns either
      a value or the thrown error, together with the world it leaves behind;
    - [console.log] and [console.error] are not modelled. *)

From Stdlib Require Import Floats.
From stdpp Require Import gmap list fin_maps strings.
From Stdlib.Strings Require Import Byte.

Set Default Proof Using "Type".
Local Open Scope N_scope.

(** ** JavaScript data *)

(** One UTF-16 code unit. *)
Abbreviation char16 := N (only parsing).

(** A JavaScript string: [s.length] is [length s], [s.charAt(i)] is [charAt s i]. *)
Abbreviation js_string := (list N) (only parsing).

(** A string literal of the source, code unit by code unit. *)
Definition lit (s : String.string) : js_string :=
  (λ a, Ascii.N_of_ascii a) <$> String.list_ascii_of_string s.
Arguments lit s%_string : simpl never.

(** [s.charAt(i)]: the one-character string at index [i], or the empty string
    when [i] is out of range. *)
Definition charAt (s : js_string) (i : nat) : js_string :=
  match s !! i with
  | Some c => [c]
  | None => []
  end.

#[local] Set Warnings "-register-all,-clear-no-such-hyp".

(** The values [JSON.parse] can produce, and [undefined] for a missing
    property. Numbers are IEEE 754 doubles, as in JavaScript. *)
Inductive js_value : Type :=
| JUndefined
| JNull
| JBool (b : bool)
| JNumber (x : float)
| JString (s : js_string)
| JArray (items : list js_value)
| JObject (fields : list (js_string * js_value)).

(** [!v]: true exactly on the falsy values. Among the values above these are
    [undefined], [null], [false], [0], [-0], [NaN] and the empty string. *)
Definition js_not (v : js_value) : bool :=
  match v with
  | JUndefined | JNull => true
  | JBool b => negb b
  | JNumber x => PrimFloat.is_zero x || PrimFloat.is_nan x
  | JString s => match s with [] => true | _ => false end
  | JArray _ | JObject _ => false
  end.

(** [typeof v !== "string"]. *)
Definition typeof_not_string (v : js_value) : bool :=
  match v with
  | JString _ => false
  | _ => true
  end.

(** ** The validator *)

(** The five messages [validateExternalId] throws, as reason codes:
    - [Missing]: "External ID not found in secret"
    - [WrongType]: "External ID must be a string"
    - [TooShort]: "External ID must be at least 8 characters long"
    - [TooLong]: "External ID must be less than 1224 characters long"
    - [InvalidCharacters]: "External ID must contain only alphanumeric characters" *)
Inductive Reason : Type :=
| Missing
| WrongType
| TooShort
| TooLong
| InvalidCharacters.

(** The character class [[a-zA-Z0-9]] on code units. *)
Definition alnum (c : char16) : bool :=
  ((97 <=? c) && (c <=? 122)) || ((65 <=? c) && (c <=? 90)) || ((48 <=? c) && (c <=? 57)).

(** [/^[a-zA-Z0-9]+$/.test(s)]: the pattern has no flags, so [^] and [$] are
    the two ends of the input; [+] asks for at least one character of the
    class, and after the last of them the input must end. *)
Fixpoint alnum_plus_anchored (s : js_string) : bool :=
  match s with
  | [] => false
  | c :: rest =>
      alnum c && match rest with
                 | [] => true
                 | _ :: _ => alnum_plus_anchored rest
                 end
  end.

(** [validateExternalId(externalId: unknown)]: [None] when the function
    returns, [Some r] when it throws the error with reason [r]. The length
    comparisons are only reached by strings (the [typeof] test before them
    throws on every other value). *)
Definition validateExternalId (externalId : js_value) : option Reason :=
  if js_not externalId then Some Missing
  else if typeof_not_string externalId then Some WrongType
  else match externalId with
       | JString s =>
           if (length s <? 8)%nat then Some TooShort
           else if (1224 <? length s)%nat then Some TooLong
           else if negb (alnum_plus_anchored s) then Some InvalidCharacters
           else None
       | _ => Some WrongType
       end.

(** ** The generator *)

(** [const characters = "ABC...XYZabc...xyz0123456789"]. *)
Definition characters : js_string :=
  lit "ABCDEFGHIJKLMNOPQRSTUVWXYZabcdefghijklmnopqrstuvwxyz0123456789".

(** [randomValues[i] % characters.length], as the index [charAt] reads.
    Past the end of the buffer [randomValues[i]] is [undefined], the
    remainder is [NaN], and [charAt(NaN)] reads index 0. *)
Definition symbol_index (randomValues : list byte) (i : nat) : nat :=
  match randomValues !! i with
  | Some b => N.to_nat (Byte.to_N b `mod` N.of_nat (length characters))
  | None => 0%nat
  end.

(** The loop [for (let i = 0; i < length; i++) result += characters.charAt(...)],
    with [remaining = length - i] iterations left. *)
Fixpoint generate_loop (remaining i : nat) (randomValues : list byte)
    (result : js_string) : js_string :=
  match remaining with
  | O => result
  | S remaining' =>
      generate_loop remaining' (S i) randomValues
        (result ++ charAt characters (symbol_index randomValues i))
  end.

(** The body of [generateSecureExternalId] after [randomBytes(length)] has
    returned [randomValues]: [length = 32], [result] starts empty. *)
Definition externalId_of (randomValues : list byte) : js_string :=
  generate_loop 32 0 randomValues [].
Arguments externalId_of : simpl never.

(** The character one byte value selects. *)
Definition symbol_of (b : byte) : js_string :=
  charAt characters (N.to_nat (Byte.to_N b `mod` N.of_nat (length characters))).

(** The 256 values of a byte. *)
Definition all_bytes : list byte :=
  omap Byte.of_N (N.of_nat <$> seq 0 256).

(** How many of the 256 byte values select the character [c]. *)
Definition byte_values_selecting (c : N) : nat :=
  length (filter (λ b, symbol_of b = [c]) all_bytes).

(** ** The versioned secret store *)

(** Modelled from the spec: the secret store, an external service reached
    through the SDK client; the repository holds no code of it. A secret has
    versions and stage labels. Following the data model of the
    specification, a secret maps each stage label to at most one version, and
    a version is a write-once payload. The source addresses a version by the
    request token that created it ([VersionId: token]), so [versions] is
    keyed by that token; a payload is the [SecretString] of the version,
    absent for a version that holds none. *)
Record Secret : Type := mkSecret {
  versions : gmap (list N) (option (list N));
  stages : gmap (list N) (list N)
}.

Definition AWSCURRENT : js_string := lit "AWSCURRENT".
Definition AWSPENDING : js_string := lit "AWSPENDING".
Arguments AWSCURRENT : simpl never.
Arguments AWSPENDING : simpl never.

(** The three commands the source sends, with the fields it sets. *)
Inductive Command : Type :=
| PutSecretValueCommand
    (SecretId ClientRequestToken SecretString : js_string)
    (VersionStages : list js_string)
| GetSecretValueCommand (SecretId VersionId VersionStage : js_string)
| UpdateSecretVersionStageCommand
    (SecretId VersionStage : js_string)
    (MoveToVersionId RemoveFromVersionId : option js_string).

(** What [client.send] resolves to; the source reads [SecretString] only. *)
Record Response : Type := mkResponse {
  SecretString : option js_string
}.

(** The errors a step can end with. *)
Inductive Error : Type :=
| EntropySourceError               (* randomBytes throws *)
| ValidationError (reason : Reason)  (* validateExternalId throws *)
| StoreUnavailable                 (* the request did not reach the store *)
| NotFound                         (* the store knows no such secret or version *)
| NoSecretString                   (* "No secret string found in response" *)
| SyntaxError                      (* JSON.parse throws *)
| TypeError                        (* property read on null *)
| InvalidStep (step : js_string).  (* `Invalid step: ${step}` *)

Inductive Outcome (A : Type) : Type :=
| Returned (a : A)
| Thrown (e : Error).
Arguments Returned {A} a.
Arguments Thrown {A} e.

(** Attach every label of [labels] to the version [v]. *)
Definition attach (labels : list js_string) (v : js_string)
    (m : gmap (list N) (list N)) : gmap (list N) (list N) :=
  foldr (λ l acc, <[l := v]> acc) m labels.

(** Modelled from the spec: the answer of the store to one command, and the
    state the store is left in. This is the store contract of the
    specification, read at the level of the three commands the source sends.
    - [PutSecretValueCommand] is PutPending: it creates the version of the
      token with the given labels; when a version of that token already
      exists the call is a no-op success (no second version, no error).
    - [GetSecretValueCommand] is GetPending: the version of that id when the
      given label is attached to it, [NotFound] otherwise.
    - [UpdateSecretVersionStageCommand] reassigns one label in one step:
      with [MoveToVersionId] the label ends on that version, which must
      exist ([NotFound] otherwise), whichever version carried it before;
      with [RemoveFromVersionId] alone the label is removed from that version
      if it is still attached to it, and nothing happens otherwise. A command
      touches the one label it names: what the contract calls PromotePending
      reaches the store as the two commands [finishSecret] sends.
    A command on a secret the store does not know is answered [NotFound], and
    a command that fails leaves the store as it was. *)
Definition store_answer (c : Command) (st : gmap (list N) Secret)
    : Outcome Response * gmap (list N) Secret :=
  match c with
  | PutSecretValueCommand sid token str labels =>
      match st !! sid with
      | None => (Thrown NotFound, st)
      | Some s =>
          match versions s !! token with
          | Some _ => (Returned (mkResponse None), st)
          | None =>
              (Returned (mkResponse None),
               <[sid := mkSecret (<[token := Some str]> (versions s))
                                 (attach labels token (stages s))]> st)
          end
      end
  | GetSecretValueCommand sid vid label =>
      match st !! sid with
      | None => (Thrown NotFound, st)
      | Some s =>
          match versions s !! vid with
          | None => (Thrown NotFound, st)
          | Some payload =>
              if decide (stages s !! label = Some vid)
              then (Returned (mkResponse payload), st)
              else (Thrown NotFound, st)
          end
      end
  | UpdateSecretVersionStageCommand sid label moveTo removeFrom =>
      match st !! sid with
      | None => (Thrown NotFound, st)
      | Some s =>
          match moveTo, removeFrom with
          | Some v, _ =>
              match versions s !! v with
              | None => (Thrown NotFound, st)
              | Some _ =>
                  (Returned (mkResponse None),
                   <[sid := mkSecret (versions s) (<[label := v]> (stages s))]> st)
              end
          | None, Some u =>
              if decide (stages s !! label = Some u)
              then (Returned (mkResponse None),
                    <[sid := mkSecret (versions s) (delete label (stages s))]> st)
              else (Returned (mkResponse None), st)
          | None, None => (Returned (mkResponse None), st)
          end
      end
  end.

Arguments store_answer : simpl never.

(** What a reader of the [AWSCURRENT] stage of a secret gets: the payload of
    the version carrying the label, or nothing when no version does. *)
Definition GetCurrent (st : gmap (list N) Secret) (sid : js_string)
    : option (option js_string) :=
  s ← st !! sid; v ← stages s !! AWSCURRENT; versions s !! v.

(** The version of [token] while [AWSPENDING] is attached to it. *)
Definition GetPending (st : gmap (list N) Secret) (sid token : js_string)
    : option (option js_string) :=
  s ← st !! sid;
  if decide (stages s !! AWSPENDING = Some token) then versions s !! token else None.

(** ** The world of a step, and computations in it *)

(** What a step did, in order: the candidate the generator returned, the
    value the validator was called on, the command the store answered
    together with the state of the store right after it (whether or not the
    answer came back to the caller), the command that was lost before it
    reached the store. The store changes only when it answers a command, so
    the states recorded by [Sent] are every state a concurrent reader of the
    store can come across. *)
Inductive Event : Type :=
| Generated (candidate : js_string)
| Validated (v : js_value)
| Sent (c : Command) (after : gmap (list N) Secret)
| Lost (c : Command).

(** What the transport does with one request: it delivers the request and
    the answer; it loses the request before it reaches the store; or it
    delivers the request and loses the answer, so that the caller sees a
    failure of a command the store has carried out. *)
Inductive Transport : Type :=
| Delivered
| RequestLost
| ResponseLost.

(** - [store]: the secrets of the store, by [SecretId];
    - [entropy]: the bytes the secure random source can still deliver;
      [randomBytes] throws when it cannot deliver what is asked;
    - [faults]: the transport, one entry per coming request (a timeout or a
      network error is a [RequestLost] or a [ResponseLost]); past the end of
      the list every request is [Delivered];
    - [journal]: the events so far, oldest first. *)
Record World : Type := mkWorld {
  store : gmap (list N) Secret;
  entropy : list byte;
  faults : list Transport;
  journal : list Event
}.

Definition M (A : Type) : Type := World → Outcome A * World.

(** A computation that leaves the world alone. *)
Definition lift {A : Type} (o : Outcome A) : M A := λ w, (o, w).

Definition ret {A : Type} (a : A) : M A := lift (Returned a).

Definition throw {A : Type} (e : Error) : M A := lift (Thrown e).

(** [await]/sequencing: an error thrown by the first computation ends the
    whole one; what the first computation did to the world stays done. *)
Definition bind {A B : Type} (c : M A) (k : A → M B) : M B :=
  λ w, match c w with
       | (Returned a, w') => k a w'
       | (Thrown e, w') => (Thrown e, w')
       end.

Notation "'let*' x ':=' c 'in' k" := (bind c (λ x, k))
  (at level 10, x name, c at level 100, k at level 200).
Notation "c ';;' k" := (bind c (λ _, k))
  (at level 100, k at level 200, right associativity).

Definition record (e : Event) : M unit :=
  λ w, (Returned tt, mkWorld (store w) (entropy w) (faults w) (journal w ++ [e])).

(** [randomBytes(n)]. *)
Definition randomBytes (n : nat) : M (list byte) :=
  λ w, if decide (n ≤ length (entropy w))%nat
       then (Returned (take n (entropy w)),
             mkWorld (store w) (drop n (entropy w)) (faults w) (journal w))
       else (Thrown EntropySourceError, w).

(** [await client.send(command)]: a command that reaches the store is
    answered by it in one step. The promise resolves to the answer when the
    transport delivers both ways; it rejects with the error of the store, or
    with a transport error when the request was lost (the store has done
    nothing) or when the answer was lost (the store has done what the command
    says). *)
Definition client_send (c : Command) : M Response :=
  λ w, match faults w with
       | RequestLost :: rest =>
           (Thrown StoreUnavailable,
            mkWorld (store w) (entropy w) rest (journal w ++ [Lost c]))
       | ResponseLost :: rest =>
           let (_, st) := store_answer c (store w) in
           (Thrown StoreUnavailable,
            mkWorld st (entropy w) rest (journal w ++ [Sent c st]))
       | _ =>
           let (answer, st) := store_answer c (store w) in
           (answer, mkWorld st (entropy w) (tail (faults w)) (journal w ++ [Sent c st]))
       end.

(** [generateSecureExternalId()]. *)
Definition generateSecureExternalId : M js_string :=
  let* randomValues := randomBytes 32 in
  let result := externalId_of randomValues in
  record (Generated result);;
  ret result.

(** A call of [validateExternalId(v)] from a step. *)
Definition call_validateExternalId (v : js_value) : M unit :=
  record (Validated v);;
  match validateExternalId v with
  | Some reason => throw (ValidationError reason)
  | None => ret tt
  end.

(** ** The rotation steps *)

(** [JSON.stringify({ externalId })] for a string without a character that
    JSON escapes; the generator's alphabet has none. The result is
    [{"externalId":"..."}]. *)
Definition JSON_stringify_SecretData (externalId : js_string) : js_string :=
  [123; 34] ++ lit "externalId" ++ [34; 58; 34] ++ externalId ++ [34; 125].
Arguments JSON_stringify_SecretData : simpl never.

(** [secretData.externalId]: reading a property of [null] (or [undefined])
    throws; an object yields its own property or [undefined]; the other
    values have no such property. *)
Definition get_externalId (secretData : js_value) : Outcome js_value :=
  match secretData with
  | JNull | JUndefined => Thrown TypeError
  | JObject fields =>
      match list_find (λ kv, kv.1 = lit "externalId") fields with
      | Some (_, (_, v)) => Returned v
      | None => Returned JUndefined
      end
  | _ => Returned JUndefined
  end.

(** [if (previousVersionId)]: an absent or empty id is falsy. *)
Definition truthy (previousVersionId : option js_string) : bool :=
  match previousVersionId with
  | Some (_ :: _) => true
  | _ => false
  end.

(** The event of the handler. [Step] is typed as one of four literals and is
    any string at run time. *)
Record RotationEvent : Type := mkRotationEvent {
  SecretId : js_string;
  ClientRequestToken : js_string;
  Step : js_string;
  PreviousVersionId : option js_string
}.

Record RotationResponse : Type := mkRotationResponse {
  statusCode : Z
}.

Section Steps.

(** [JSON.parse], of the runtime: [None] when it throws a [SyntaxError]. *)
Variable JSON_parse : js_string → option js_value.

(** Step 1. *)
Definition createSecret (secretArn token : js_string) : M unit :=
  let* newExternalId := generateSecureExternalId in
  let newSecretValue := JSON_stringify_SecretData newExternalId in
  let command := PutSecretValueCommand secretArn token newSecretValue [AWSPENDING] in
  client_send command;;
  ret tt.

(** Step 2. *)
Definition setSecret (secretArn token : js_string) : M unit :=
  ret tt.

(** Step 3. *)
Definition testSecret (secretArn token : js_string) : M unit :=
  let command := GetSecretValueCommand secretArn token AWSPENDING in
  let* response := client_send command in
  match SecretString response with
  | None | Some [] => throw NoSecretString
  | Some secretString =>
      match JSON_parse secretString with
      | None => throw SyntaxError
      | Some secretData =>
          let* externalId := lift (get_externalId secretData) in
          call_validateExternalId externalId
      end
  end.

(** The external id a stored payload holds, as step 3 reads it back: the
    [SecretString] of the response, parsed, and its [externalId] property. *)
Definition stored_externalId (payload : option js_string) : Outcome js_value :=
  match payload with
  | None | Some [] => Thrown NoSecretString
  | Some secretString =>
      match JSON_parse secretString with
      | None => Thrown SyntaxError
      | Some secretData => get_externalId secretData
      end
  end.

(** Step 4. *)
Definition finishSecret (secretArn token : js_string)
    (previousVersionId : option js_string) : M unit :=
  let moveToCurrentCommand :=
    UpdateSecretVersionStageCommand secretArn AWSCURRENT (Some token) previousVersionId in
  client_send moveToCurrentCommand;;
  if truthy previousVersionId then
    let removePendingCommand :=
      UpdateSecretVersionStageCommand secretArn AWSPENDING None previousVersionId in
    client_send removePendingCommand;;
    ret tt
  else ret tt.

(** The handler: the [switch] on the step, and [{ statusCode: 200 }] when the
    step returned. The [catch] block logs and throws the error again. *)
Definition handler (event : RotationEvent) : M RotationResponse :=
  let secretArn := SecretId event in
  let token := ClientRequestToken event in
  let step := Step event in
  (if decide (step = lit "createSecret") then createSecret secretArn token
   else if decide (step = lit "setSecret") then setSecret secretArn token
   else if decide (step = lit "testSecret") then testSecret secretArn token
   else if decide (step = lit "finishSecret")
        then finishSecret secretArn token (PreviousVersionId event)
   else throw (InvalidStep step));;
  ret (mkRotationResponse 200).

(** The trigger invokes the handler once per event, whatever the previous
    invocation ended with. *)
Definition invoke_all (events : list RotationEvent) (w : World) : World :=
  foldl (λ w event, (handler event w).2) w events.

End Steps.

(** The states of the store recorded in a journal. *)
Definition snapshots (j : list Event) : list (gmap (list N) Secret) :=
  omap (λ e, match e with Sent _ st => Some st | _ => None end) j.

(** The values the validator was called on. *)
Definition validated (j : list Event) : list js_value :=
  omap (λ e, match e with Validated v => Some v | _ => None end) j.

(** The candidates the generator returned. *)
Definition generated (j : list Event) : list js_string :=
  omap (λ e, match e with Generated c => Some c | _ => None end) j.

(** The first [n] coming requests reach the store, and their answers the
    caller. *)
Definition online (n : nat) (w : World) : Prop :=
  Forall (λ t, t = Delivered) (take n (faults w)).

(** ** The validator, in the words of the specification *)

(** The reason codes as the specification words them, tried in the order it
    lists them: [Missing] for a value that is absent ([undefined], [null]) or
    empty (the empty string), [WrongType] for a value that is not a string,
    [TooShort] below 8 characters, [TooLong] above 1224, [InvalidCharacters]
    for a character outside [[A-Za-z0-9]]. *)
Definition spec_validate (v : js_value) : option Reason :=
  match v with
  | JUndefined | JNull | JString [] => Some Missing
  | JString s =>
      if (length s <? 8)%nat then Some TooShort
      else if (1224 <? length s)%nat then Some TooLong
      else if negb (forallb alnum s) then Some InvalidCharacters
      else None
  | _ => Some WrongType
  end.

(** The falsy values that are neither absent nor a string: [false], and the
    numbers [0], [-0] and [NaN]. *)
Definition falsy_non_string (v : js_value) : bool :=
  match v with
  | JBool b => negb b
  | JNumber x => PrimFloat.is_zero x || PrimFloat.is_nan x
  | _ => false
  end.

(** Each rule of the validator on its own: the condition of its [if], with
    the length and character rules read on strings. *)
Definition violates (r : Reason) (v : js_value) : bool :=
  match r, v with
  | Missing, _ => js_not v
  | WrongType, _ => typeof_not_string v
  | TooShort, JString s => (length s <? 8)%nat
  | TooLong, JString s => (1224 <? length s)%nat
  | InvalidCharacters, JString s => negb (alnum_plus_anchored s)
  | _, _ => false
  end.

(** Each rule as the specification words it: [Missing] for a value that is
    absent or empty, [WrongType] for a value that is not a string, then the
    length and character rules on strings. *)
Definition spec_violates (r : Reason) (v : js_value) : bool :=
  match r, v with
  | Missing, (JUndefined | JNull | JString []) => true
  | WrongType, _ => typeof_not_string v
  | TooShort, JString s => (length s <? 8)%nat
  | TooLong, JString s => (1224 <? length s)%nat
  | InvalidCharacters, JString s => negb (forallb alnum s)
  | _, _ => false
  end.

Definition rules_in_order : list Reason :=
  [Missing; WrongType; TooShort; TooLong; InvalidCharacters].

(** The versions of a secret that carry [AWSCURRENT]. *)
Definition current_holders (s : Secret) : list js_string :=
  filter (λ v, stages s !! AWSCURRENT = Some v) (elements (dom (versions s))).

(** The secret is populated: exactly one of its versions holds [AWSCURRENT]. *)
Definition populated (st : gmap (list N) Secret) (sid : js_string) : Prop :=
  ∃ s, st !! sid = Some s ∧ length (current_holders s) = 1%nat.

(** No reader of [sid] has come across a store without a current version, and
    none would now. *)
Definition never_without_current (sid : js_string) (w : World) : Prop :=
  populated (store w) sid ∧ Forall (λ st, populated st sid) (snapshots (journal w)).

(** ** Sample worlds *)

(** A secret [s1] whose version [v0] is current. *)
Definition sample_secret : Secret :=
  mkSecret {[ lit "v0" := Some (JSON_stringify_SecretData (lit "OldExternalId0")) ]}
           {[ AWSCURRENT := lit "v0" ]}.

(** A world with that secret, 64 bytes of entropy and a working transport. *)
Definition sample_world : World :=
  mkWorld {[ lit "s1" := sample_secret ]} (replicate 32 x07 ++ replicate 32 x2a) [] [].

(** A [JSON.parse] for the documents [createSecret] writes:
    [{"externalId":"..."}] with no escape in the string. *)
Definition sample_JSON_parse (s : js_string) : option js_value :=
  let opening := [123; 34] ++ lit "externalId" ++ [34; 58; 34] in
  let body := drop (length opening) s in
  if decide (take (length opening) s = opening
             ∧ drop (length body - 2) body = [34; 125]
             ∧ (34 ∉ take (length body - 2) body)
             ∧ (92 ∉ take (length body - 2) body))
  then Some (JObject [(lit "externalId", JString (take (length body - 2) body))])
  else None.

Definition sample_event (step : String.string) : RotationEvent :=
  mkRotationEvent (lit "s1") (lit "t1") (lit step) (Some (lit "v0")).

(** The commands that leave [AWSCURRENT] on some version: a put that does not
    name the label, a read, a move of a label, the removal of another label. *)
Definition keeps_current (c : Command) : Prop :=
  match c with
  | PutSecretValueCommand _ _ _ labels => AWSCURRENT ∉ labels
  | GetSecretValueCommand _ _ _ => True
  | UpdateSecretVersionStageCommand _ label moveTo _ =>
      is_Some moveTo ∨ label ≠ AWSCURRENT
  end.

(** A computation keeps a property of the world, whatever it ends with. *)
Definition preserves {A : Type} (P : World → Prop) (c : M A) : Prop :=
  ∀ w, P w → P (c w).2.

(** What a [finishSecret] that returned leaves behind: the version of the
    token exists and holds [AWSCURRENT], and a truthy previous version id
    does not (or no longer) hold [AWSPENDING]. *)
Definition finished (st : gmap (list N) Secret) (sid token : js_string)
    (previousVersionId : option js_string) : Prop :=
  ∃ s, st !! sid = Some s
       ∧ is_Some (versions s !! token)
       ∧ stages s !! AWSCURRENT = Some token
       ∧ (truthy previousVersionId = true →
          previousVersionId ≠ stages s !! AWSPENDING).

(** The four steps of one rotation of the sample secret, in order. *)
Definition sample_rotation : list RotationEvent :=
  [sample_event "createSecret"; sample_event "setSecret";
   sample_event "testSecret"; sample_event "finishSecret"].

(** The sample world after [createSecret], [setSecret] and [testSecret]. *)
Definition sample_world_tested : World :=
  invoke_all sample_JSON_parse
    [sample_event "createSecret"; sample_event "setSecret"; sample_event "testSecret"]
    sample_world.

(** The same, on a transport that delivers the next request and loses the
    one after it. *)
Definition sample_world_flaky : World :=
  mkWorld (store sample_world_tested) (entropy sample_world_tested)
          [Delivered; RequestLost] (journal sample_world_tested).

(** The validator has been called on exactly the values [seen]. *)
Definition calls_are (seen : list js_value) (w : World) : Prop :=
  validated (journal w) = seen.

(** The journal follows the store: starting from the store [st0] and an
    empty journal, the store is in the last state the journal recorded. *)
Definition tracked (st0 : gmap (list N) Secret) (w : World) : Prop :=
  last (st0 :: snapshots (journal w)) = Some (store w).

(** ** The stack properties and their validation

    Source: [src/lib/IamRoleExternalAccess.ts], [validateProps]. *)

(** The three required properties. They are typed as a string and two
    arrays of strings; [validateProps] also guards against their absence at
    run time, so each may be missing here. *)
Record CrossAccountAccessStackProps : Type := mkProps {
  externalAccountId : option js_string;
  externalPrincipalArns : option (list js_string);
  s3BucketArns : option (list js_string)
}.

(** The five errors of [validateProps]:
    - [InvalidAccountId]: "externalAccountId must be a valid 12-digit AWS account ID"
    - [NoPrincipalArns]: "externalPrincipalArns must contain at least one principal ARN"
    - [NoBucketArns]: "s3BucketArns must contain at least one S3 bucket ARN"
    - [InvalidPrincipalArn index]: "externalPrincipalArns[index] must be a valid
      IAM ARN from the external account ..."
    - [InvalidBucketArn index]: "s3BucketArns[index] must be a valid S3 bucket ARN" *)
Inductive PropsError : Type :=
| InvalidAccountId
| NoPrincipalArns
| NoBucketArns
| InvalidPrincipalArn (index : nat)
| InvalidBucketArn (index : nat).

(** The class [\d]: the ten ASCII digits. *)
Definition digit (c : char16) : bool := (48 <=? c) && (c <=? 57).

(** [/^\d{n}$/.test(s)]: exactly [n] characters, all digits; the pattern has
    no flags, so [$] is the end of the input. *)
Fixpoint digits_anchored (n : nat) (s : js_string) : bool :=
  match n, s with
  | O, [] => true
  | S n', c :: rest => digit c && digits_anchored n' rest
  | _, _ => false
  end.

(** [s.startsWith(searchString)]. *)
Definition startsWith (s searchString : js_string) : bool :=
  bool_decide (take (length searchString) s = searchString).

(** [s.includes(searchString)]: [searchString] starts at some position of [s]. *)
Fixpoint includes (s searchString : js_string) : bool :=
  startsWith s searchString
  || match s with
     | [] => false
     | _ :: rest => includes rest searchString
     end.

(** [arr.forEach((arn, index) => { if (!ok(arn)) throw ... })] from [index]
    on: the index at which the callback throws, if it does. *)
Fixpoint forEach_throws (ok : js_string → bool) (arr : list js_string) (index : nat)
    : option nat :=
  match arr with
  | [] => None
  | arn :: rest => if ok arn then forEach_throws ok rest (S index) else Some index
  end.

(** The test of one principal ARN against the account id. *)
Definition principal_ok (accountId arn : js_string) : bool :=
  startsWith arn (lit "arn:aws:iam::") && includes arn accountId.

(** The test of one bucket ARN. *)
Definition bucket_ok (arn : js_string) : bool :=
  startsWith arn (lit "arn:aws:s3:::").

(** [validateProps(props)]: [None] when it returns, the error when it throws. *)
Definition validateProps (props : CrossAccountAccessStackProps) : option PropsError :=
  match externalAccountId props with
  | None | Some [] => Some InvalidAccountId
  | Some accountId =>
      if negb (digits_anchored 12 accountId) then Some InvalidAccountId
      else match externalPrincipalArns props with
           | None | Some [] => Some NoPrincipalArns
           | Some principals =>
               match s3BucketArns props with
               | None | Some [] => Some NoBucketArns
               | Some buckets =>
                   match forEach_throws (principal_ok accountId) principals 0 with
                   | Some index => Some (InvalidPrincipalArn index)
                   | None =>
                       match forEach_throws bucket_ok buckets 0 with
                       | Some index => Some (InvalidBucketArn index)
                       | None => None
                       end
                   end
               end
           end
  end.

(** The properties the tests of the repository start from. *)
Definition defaultProps : CrossAccountAccessStackProps :=
  mkProps (Some (lit "123456789012"))
          (Some [lit "arn:aws:iam::123456789012:user/TestUser";
                 lit "arn:aws:iam::123456789012:role/TestRole"])
          (Some [lit "arn:aws:s3:::test-bucket"; lit "arn:aws:s3:::test-bucket/*"]).

(** ** Requests of the handler, and the permissions of its role *)

(** The commands a journal shows, answered or lost, oldest first. *)
Definition requests (j : list Event) : list Command :=
  omap (λ e, match e with Sent c _ | Lost c => Some c | _ => None end) j.

(** The commands the handler can send for an event: a put of a new version
    of the token with the stage [AWSPENDING] alone, a read of the version of
    the token at the stage [AWSPENDING], a move of [AWSCURRENT] onto the
    version of the token, a removal of [AWSPENDING] from the previous
    version; all of them on the secret of the event. *)
Definition addresses (event : RotationEvent) (c : Command) : Prop :=
  match c with
  | PutSecretValueCommand sid token _ labels =>
      sid = SecretId event ∧ token = ClientRequestToken event ∧ labels = [AWSPENDING]
  | GetSecretValueCommand sid vid label =>
      sid = SecretId event ∧ vid = ClientRequestToken event ∧ label = AWSPENDING
  | UpdateSecretVersionStageCommand sid label moveTo removeFrom =>
      sid = SecretId event ∧ removeFrom = PreviousVersionId event
      ∧ ((label = AWSCURRENT ∧ moveTo = Some (ClientRequestToken event))
         ∨ (label = AWSPENDING ∧ moveTo = None ∧ truthy removeFrom = true))
  end.

(** The steps that send requests. *)
Definition steps_with_requests : list js_string :=
  [lit "createSecret"; lit "testSecret"; lit "finishSecret"].

(** The commands a journal shows as answered by the store, oldest first. *)
Definition sent (j : list Event) : list Command :=
  omap (λ e, match e with Sent c _ => Some c | _ => None end) j.

(** The store after it has answered the commands [cs] in turn. *)
Definition replay (cs : list Command) (st : gmap (list N) Secret) : gmap (list N) Secret :=
  foldl (λ st c, (store_answer c st).2) st cs.

(** The secret a command names. *)
Definition command_SecretId (c : Command) : js_string :=
  match c with
  | PutSecretValueCommand sid _ _ _
  | GetSecretValueCommand sid _ _
  | UpdateSecretVersionStageCommand sid _ _ _ => sid
  end.

(** A computation sends at most [n] requests, all of them [ok]; it only adds
    to the journal, and the store it leaves is the one it found after the
    requests that reached it. *)
Definition sends_only {A : Type} (ok : Command → Prop) (n : nat) (m : M A) : Prop :=
  ∀ w, ∃ new,
    journal (m w).2 = journal w ++ new
    ∧ Forall ok (requests new)
    ∧ (length (requests new) ≤ n)%nat
    ∧ store (m w).2 = replay (sent new) (store w).

(** What the handler adds to the journal of a world. *)
Definition handler_journal (JSON_parse : js_string → option js_value)
    (event : RotationEvent) (w : World) : list Event :=
  drop (length (journal w)) (journal (handler JSON_parse event w).2).

(** The byte whose value is the index of [c] in [characters], if [c] is one
    of them. *)
Definition byte_selecting (c : char16) : option byte :=
  ix ← list_find (λ x, x = c) characters; Byte.of_N (N.of_nat ix.1).

(** [JSON.parse] reads back what [JSON.stringify] wrote for an external id
    of letters and digits. *)
Definition parses_SecretData (JSON_parse : js_string → option js_value) : Prop :=
  ∀ externalId, Forall (λ c, alnum c = true) externalId →
    JSON_parse (JSON_stringify_SecretData externalId)
    = Some (JObject [(lit "externalId", JString externalId)]).

(** * Properties *)


(** ** The validator *)

Lemma alnum_plus_anchored_forallb (s : list N) :
  alnum_plus_anchored s = match s with [] => false | _ :: _ => forallb alnum s end.
Proof.
  induction s as [|c rest IH]; [reflexivity|].
  cbn [alnum_plus_anchored forallb]. rewrite IH.
  destruct rest; [cbn; by rewrite andb_true_r | reflexivity].
Qed.

Lemma forallb_alnum_Forall (s : list N) :
  forallb alnum s = true ↔ Forall (λ c, alnum c = true) s.
Proof. rewrite forallb_forall, Forall_forall. by setoid_rewrite list_elem_of_In. Qed.

Example validate_AbCd1234 : validateExternalId (JString (lit "AbCd1234")) = None.
Proof. reflexivity. Qed.

Example validate_short1 : validateExternalId (JString (lit "short1")) = Some TooShort.
Proof. reflexivity. Qed.

Example validate_1225 : validateExternalId (JString (replicate 1225 97)) = Some TooLong.
Proof. vm_compute. reflexivity. Qed.

Example validate_1224 : validateExternalId (JString (replicate 1224 97)) = None.
Proof. vm_compute. reflexivity. Qed.

Example validate_bad_value : validateExternalId (JString (lit "bad-value!")) = Some InvalidCharacters.
Proof. reflexivity. Qed.

Example validate_empty : validateExternalId (JString []) = Some Missing.
Proof. reflexivity. Qed.

Example validate_zero : validateExternalId (JNumber 0%float) = Some Missing.
Proof. reflexivity. Qed.

Example validate_one : validateExternalId (JNumber 1%float) = Some WrongType.
Proof. reflexivity. Qed.

(** C4, as stated, fails: [false] is a value that is present and is not a
    string, so the claim asks for [WrongType]; [validateExternalId] tests
    [!externalId] first and reports [Missing]. *)
Lemma validateExternalId_false_is_Missing :
  validateExternalId (JBool false) = Some Missing
  ∧ spec_validate (JBool false) = Some WrongType
  ∧ validateExternalId (JBool false) ≠ spec_validate (JBool false).
Proof. repeat split; [reflexivity..|discriminate]. Qed.

Lemma validateExternalId_reason (v : js_value) :
  validateExternalId v = (if falsy_non_string v then Some Missing else spec_validate v).
Proof.
  destruct v as [| |b|x|s|items|fields]; try reflexivity.
  destruct s as [|c s]; [reflexivity|].
  unfold validateExternalId, spec_validate.
  cbn [js_not typeof_not_string falsy_non_string].
  by rewrite alnum_plus_anchored_forallb.
Qed.

Lemma validateExternalId_accepts (v : js_value) :
  validateExternalId v = None ↔
  ∃ s, v = JString s ∧ (8 ≤ length s ≤ 1224)%nat ∧ Forall (λ c, alnum c = true) s.
Proof.
  rewrite validateExternalId_reason. split.
  - destruct v as [| |b|x|s|items|fields]; cbn [falsy_non_string];
      try (unfold spec_validate; discriminate).
    { destruct b; unfold spec_validate; discriminate. }
    { destruct (_ || _); unfold spec_validate; discriminate. }
    destruct s as [|c s]; [discriminate|].
    unfold spec_validate.
    destruct (length (c :: s) <? 8)%nat eqn:Hshort; [discriminate|].
    destruct (1224 <? length (c :: s))%nat eqn:Hlong; [discriminate|].
    destruct (forallb alnum (c :: s)) eqn:Hall; [|discriminate].
    intros _. exists (c :: s).
    apply Nat.ltb_ge in Hshort, Hlong. apply forallb_alnum_Forall in Hall.
    repeat split; [lia..|done].
  - intros (s & -> & [Hlo Hhi] & Hall). cbn [falsy_non_string].
    destruct s as [|c s]; [cbn in Hlo; lia|].
    unfold spec_validate.
    apply Nat.ltb_ge in Hlo as ->. apply Nat.ltb_ge in Hhi as ->.
    apply forallb_alnum_Forall in Hall as ->. reflexivity.
Qed.

(** C4, amended: [validateExternalId] returns exactly on the strings of 8 to
    1224 characters that are all ASCII letters or digits. On every other
    value it throws, with the reason of the specification, except that every
    falsy value is [Missing]: besides the absent value and the empty string
    these are [false] and the numbers [0], [-0] and [NaN], which are not
    strings. *)
Theorem validateExternalId_correct (v : js_value) :
  (validateExternalId v = None ↔
     ∃ s, v = JString s ∧ (8 ≤ length s ≤ 1224)%nat ∧ Forall (λ c, alnum c = true) s)
  ∧ validateExternalId v =
      (if falsy_non_string v then Some Missing else spec_validate v).
Proof. split; [apply validateExternalId_accepts | apply validateExternalId_reason]. Qed.

Lemma validateExternalId_find_violates (v : js_value) :
  validateExternalId v = List.find (λ r, violates r v) rules_in_order.
Proof.
  unfold validateExternalId, rules_in_order. cbn [List.find violates].
  destruct (js_not v); [reflexivity|].
  destruct v as [| |b|x|s|items|fields]; reflexivity.
Qed.

(** C10: a value that violates more than one rule of the specification
    fails with the first of them in the order [Missing], [WrongType],
    [TooShort], [TooLong], [InvalidCharacters]; and on every value the reason
    is the first condition of the validator, in that order, that the value
    meets. *)
Theorem validateExternalId_first_violation (v : js_value) :
  (2 ≤ length (List.filter (λ r, spec_violates r v) rules_in_order))%nat →
  validateExternalId v = List.find (λ r, spec_violates r v) rules_in_order
  ∧ validateExternalId v = List.find (λ r, violates r v) rules_in_order.
Proof.
  intros Htwo. split; [|apply validateExternalId_find_violates].
  rewrite validateExternalId_reason. unfold rules_in_order in *.
  destruct v as [| |b|x|s|items|fields]; try reflexivity;
    try (cbn in Htwo; lia).
  destruct s as [|c s]; [reflexivity|].
  cbn [falsy_non_string]. unfold spec_validate.
  cbn [List.find List.filter spec_violates typeof_not_string] in *.
  destruct (length (c :: s) <? 8)%nat eqn:Hshort; [reflexivity|].
  destruct (1224 <? length (c :: s))%nat; [reflexivity|].
  destruct (negb (forallb alnum (c :: s))); [reflexivity|].
  cbn in Htwo. lia.
Qed.

(** The examples of C10: a 3-character string with a [!] violates
    [TooShort] and [InvalidCharacters] and fails as [TooShort]; the empty
    string violates [Missing] and [TooShort] and fails as [Missing]. *)
Lemma validateExternalId_first_violation_witness :
  (spec_violates TooShort (JString (lit "ab!")) = true
   ∧ spec_violates InvalidCharacters (JString (lit "ab!")) = true
   ∧ validateExternalId (JString (lit "ab!")) = Some TooShort)
  ∧ (spec_violates Missing (JString []) = true
     ∧ spec_violates TooShort (JString []) = true
     ∧ validateExternalId (JString []) = Some Missing).
Proof.
  split.
  - assert (H : (2 ≤ length (List.filter (λ r, spec_violates r (JString (lit "ab!")))
                               rules_in_order))%nat) by (vm_compute; lia).
    destruct (validateExternalId_first_violation (JString (lit "ab!")) H) as [-> _].
    repeat split; reflexivity.
  - assert (H : (2 ≤ length (List.filter (λ r, spec_violates r (JString []))
                               rules_in_order))%nat) by (vm_compute; lia).
    destruct (validateExternalId_first_violation (JString []) H) as [-> _].
    repeat split; reflexivity.
Defined.

(** ** The generator *)

Lemma length_characters : length characters = 62%nat.
Proof. reflexivity. Qed.

Lemma characters_alnum : Forall (λ c, alnum c = true) characters.
Proof. apply forallb_alnum_Forall. vm_compute. reflexivity. Qed.

Lemma symbol_index_lt (randomValues : list byte) (i : nat) :
  (symbol_index randomValues i < length characters)%nat.
Proof.
  unfold symbol_index. rewrite length_characters.
  destruct (randomValues !! i) as [b|]; [|lia].
  pose proof (N.mod_lt (Byte.to_N b) 62). lia.
Qed.

Lemma charAt_lt (s : list N) (i : nat) :
  (i < length s)%nat → ∃ c, charAt s i = [c] ∧ c ∈ s.
Proof.
  intros Hi. destruct (lookup_lt_is_Some_2 s i Hi) as [c Hc].
  exists c. unfold charAt. rewrite Hc. split; [done|].
  by eapply list_elem_of_lookup_2.
Qed.

Lemma generate_loop_unfold (remaining i : nat) (randomValues : list byte) (result : list N) :
  generate_loop remaining i randomValues result =
  result ++ mjoin ((λ j, charAt characters (symbol_index randomValues j)) <$> seq i remaining).
Proof.
  revert i result. induction remaining as [|n IH]; intros i result.
  - cbn. by rewrite app_nil_r.
  - cbn [generate_loop seq fmap list_fmap mjoin list_join]. rewrite IH.
    by rewrite <-app_assoc.
Qed.

Lemma symbols_length (randomValues : list byte) (i n : nat) :
  length (mjoin ((λ j, charAt characters (symbol_index randomValues j)) <$> seq i n)) = n.
Proof.
  revert i. induction n as [|n IH]; intros i; [reflexivity|].
  cbn [seq fmap list_fmap mjoin list_join]. rewrite length_app, IH.
  destruct (charAt_lt characters _ (symbol_index_lt randomValues i)) as (c & -> & _).
  reflexivity.
Qed.

Lemma symbols_alnum (randomValues : list byte) (i n : nat) :
  Forall (λ c, alnum c = true)
    (mjoin ((λ j, charAt characters (symbol_index randomValues j)) <$> seq i n)).
Proof.
  revert i. induction n as [|n IH]; intros i; [constructor|].
  cbn [seq fmap list_fmap mjoin list_join]. apply Forall_app. split; [|apply IH].
  destruct (charAt_lt characters _ (symbol_index_lt randomValues i)) as (c & -> & Hc).
  constructor; [|constructor].
  by apply (proj1 (Forall_forall _ _) characters_alnum).
Qed.

Lemma externalId_of_form (randomValues : list byte) :
  length (externalId_of randomValues) = 32%nat
  ∧ Forall (λ c, alnum c = true) (externalId_of randomValues).
Proof.
  unfold externalId_of. rewrite generate_loop_unfold, app_nil_l.
  split; [apply symbols_length | apply symbols_alnum].
Qed.

Lemma externalId_of_join (randomValues : list byte) :
  length randomValues = 32%nat →
  externalId_of randomValues = mjoin (symbol_of <$> randomValues).
Proof.
  intros Hlen. unfold externalId_of. rewrite generate_loop_unfold, app_nil_l.
  f_equal. rewrite <-Hlen. apply list_eq. intros i.
  rewrite !list_lookup_fmap.
  destruct (decide (i < length randomValues)%nat) as [Hi|Hi].
  - rewrite lookup_seq_lt by done.
    destruct (lookup_lt_is_Some_2 _ _ Hi) as [b Hb].
    rewrite Hb. cbn. unfold symbol_index, symbol_of. by rewrite Hb.
  - rewrite lookup_seq_ge by lia. by rewrite lookup_ge_None_2 by lia.
Qed.

Lemma all_bytes_complete (b : byte) : b ∈ all_bytes.
Proof.
  apply list_elem_of_In.
  destruct b; vm_compute; tauto.
Qed.

Lemma all_bytes_NoDup : NoDup all_bytes.
Proof.
  apply (NoDup_fmap_1 Byte.to_N).
  apply (bool_decide_unpack _). by vm_compute.
Qed.

Example externalId_of_zeroes :
  externalId_of (replicate 32 x00) = replicate 32 65.
Proof. reflexivity. Qed.

(** C9: in every world [generateSecureExternalId] either returns a string of
    exactly 32 characters, each an ASCII letter or digit, which the validator
    accepts, or throws because the random source cannot deliver 32 bytes. *)
Theorem generateSecureExternalId_form (w : World) :
  match generateSecureExternalId w with
  | (Returned result, _) =>
      result = externalId_of (take 32 (entropy w))
      ∧ length result = 32%nat
      ∧ Forall (λ c, alnum c = true) result
      ∧ validateExternalId (JString result) = None
  | (Thrown e, _) => e = EntropySourceError ∧ (length (entropy w) < 32)%nat
  end.
Proof.
  unfold generateSecureExternalId, bind, randomBytes, record, ret, lift.
  destruct (decide (32 ≤ length (entropy w))%nat) as [Hlen|Hlen]; [|split; [done|lia]].
  destruct (externalId_of_form (take 32 (entropy w))) as [Hl Ha].
  repeat split; [done..|].
  apply validateExternalId_accepts. eexists. split; [done|].
  rewrite Hl. split; [lia|done].
Qed.

(** C8, as stated, fails: 5 byte values select [A] and 4 select [I]. *)
Lemma generator_not_uniform :
  ¬ (∀ c1 c2, c1 ∈ characters → c2 ∈ characters →
       byte_values_selecting c1 = byte_values_selecting c2).
Proof.
  intros H. specialize (H 65 73).
  assert (H65 : 65 ∈ characters) by (apply list_elem_of_In; vm_compute; tauto).
  assert (H73 : 73 ∈ characters) by (apply list_elem_of_In; vm_compute; tauto).
  specialize (H H65 H73). vm_compute in H. discriminate.
Qed.

(** C8, amended: the character at each of the 32 positions is selected by
    the byte at that position alone, as [characters.charAt(byte % 62)]. Of the
    256 byte values, 5 select each of the first 8 symbols ([A] to [H]) and 4
    select each of the other 54: the symbols are not equally likely. *)
Theorem generator_distribution (randomValues : list byte) :
  length randomValues = 32%nat →
  externalId_of randomValues = mjoin (symbol_of <$> randomValues)
  ∧ byte_values_selecting <$> characters = replicate 8 5%nat ++ replicate 54 4%nat
  ∧ (∀ b, b ∈ all_bytes) ∧ NoDup all_bytes ∧ length all_bytes = 256%nat.
Proof.
  intros Hlen. split; [by apply externalId_of_join|].
  split; [vm_compute; reflexivity|].
  split; [apply all_bytes_complete|].
  split; [apply all_bytes_NoDup | reflexivity].
Qed.

Lemma generator_distribution_witness :
  externalId_of (replicate 32 x07) = mjoin (symbol_of <$> replicate 32 x07)
  ∧ byte_values_selecting <$> characters = replicate 8 5%nat ++ replicate 54 4%nat
  ∧ (∀ b, b ∈ all_bytes) ∧ NoDup all_bytes ∧ length all_bytes = 256%nat.
Proof. apply (generator_distribution (replicate 32 x07)). reflexivity. Defined.

(** ** The store and the transport *)

Lemma AWSCURRENT_ne_AWSPENDING : AWSCURRENT ≠ AWSPENDING.
Proof. by vm_compute. Qed.

Lemma online_head (n : nat) (w : World) (b : Transport) (rest : list Transport) :
  online (S n) w → faults w = b :: rest → b = Delivered.
Proof. unfold online. intros H Hf. rewrite Hf in H. by inversion H. Qed.

Lemma online_tail (n : nat) (w w' : World) :
  online (S n) w → faults w' = tail (faults w) → online n w'.
Proof.
  unfold online. intros H ->. destruct (faults w) as [|b rest]; cbn in *.
  - by rewrite take_nil.
  - by inversion H.
Qed.

(** A request that reaches the store is answered by it in one step. *)
Lemma client_send_online (c : Command) (w : World) :
  online 1 w →
  client_send c w =
  ((store_answer c (store w)).1,
   mkWorld (store_answer c (store w)).2 (entropy w) (tail (faults w))
           (journal w ++ [Sent c (store_answer c (store w)).2])).
Proof.
  intros Hon. unfold client_send.
  destruct (faults w) as [|b rest] eqn:Hf.
  - by destruct (store_answer c (store w)).
  - rewrite (online_head 0 w b rest Hon Hf).
    by destruct (store_answer c (store w)).
Qed.

(** A request lost before it reaches the store changes nothing in the store. *)
Lemma client_send_lost (c : Command) (w : World) (rest : list Transport) :
  faults w = RequestLost :: rest →
  client_send c w =
  (Thrown StoreUnavailable, mkWorld (store w) (entropy w) rest (journal w ++ [Lost c])).
Proof. intros Hf. unfold client_send. by rewrite Hf. Qed.

Lemma store_answer_GetPending (st : gmap (list N) Secret) (sid token : list N) :
  store_answer (GetSecretValueCommand sid token AWSPENDING) st =
  (match GetPending st sid token with
   | Some payload => Returned (mkResponse payload)
   | None => Thrown NotFound
   end, st).
Proof.
  unfold store_answer, GetPending.
  destruct (st !! sid) as [s|]; cbn; [|done].
  destruct (versions s !! token) as [payload|]; by case_decide.
Qed.

(** ** Step 3 *)

Lemma testSecret_online (JSON_parse : list N → option js_value)
    (sid token : list N) (w : World) :
  online 1 w →
  testSecret JSON_parse sid token w =
  let w1 := mkWorld (store w) (entropy w) (tail (faults w))
              (journal w ++ [Sent (GetSecretValueCommand sid token AWSPENDING) (store w)]) in
  match GetPending (store w) sid token with
  | None => (Thrown NotFound, w1)
  | Some None | Some (Some []) => (Thrown NoSecretString, w1)
  | Some (Some secretString) =>
      match JSON_parse secretString with
      | None => (Thrown SyntaxError, w1)
      | Some secretData =>
          match get_externalId secretData with
          | Thrown e => (Thrown e, w1)
          | Returned v =>
              (match validateExternalId v with
               | Some reason => Thrown (ValidationError reason)
               | None => Returned tt
               end,
               mkWorld (store w) (entropy w) (tail (faults w))
                 (journal w1 ++ [Validated v]))
          end
      end
  end.
Proof.
  intros Hon. unfold testSecret, bind.
  rewrite client_send_online by done. rewrite store_answer_GetPending. cbn.
  destruct (GetPending (store w) sid token) as [[[|c s]|]|]; cbn; try done.
  destruct (JSON_parse (c :: s)) as [d|]; [|done].
  unfold lift. destruct (get_externalId d) as [v|e]; [|done].
  unfold call_validateExternalId, bind, record. cbn.
  by destruct (validateExternalId v).
Qed.

Lemma validated_app (j1 j2 : list Event) :
  validated (j1 ++ j2) = validated j1 ++ validated j2.
Proof. apply omap_app. Qed.

Lemma snapshots_app (j1 j2 : list Event) :
  snapshots (j1 ++ j2) = snapshots j1 ++ snapshots j2.
Proof. apply omap_app. Qed.

Lemma generated_app (j1 j2 : list Event) :
  generated (j1 ++ j2) = generated j1 ++ generated j2.
Proof. apply omap_app. Qed.

Lemma handler_testSecret (JSON_parse : list N → option js_value)
    (sid token : list N) (prev : option (list N)) (w : World) :
  handler JSON_parse (mkRotationEvent sid token (lit "testSecret") prev) w =
  match testSecret JSON_parse sid token w with
  | (Returned _, w') => (Returned (mkRotationResponse 200), w')
  | (Thrown e, w') => (Thrown e, w')
  end.
Proof.
  unfold handler. cbn [SecretId ClientRequestToken Step PreviousVersionId].
  repeat (case_decide as Hd; [by vm_compute in Hd|]).
  case_decide; [|done]. unfold bind.
  by destruct (testSecret JSON_parse sid token w) as [[[]|e] w'].
Qed.

Example testSecret_after_createSecret :
  (testSecret sample_JSON_parse (lit "s1") (lit "t1")
     (createSecret (lit "s1") (lit "t1") sample_world).2).1 = Returned tt.
Proof. vm_compute. reflexivity. Qed.

Example testSecret_before_createSecret :
  (testSecret sample_JSON_parse (lit "s1") (lit "t1") sample_world).1 = Thrown NotFound.
Proof. vm_compute. reflexivity. Qed.




(** ** No gap: a current version at every point *)

Lemma current_holders_one (s : Secret) :
  length (current_holders s) = 1%nat ↔
  ∃ v, stages s !! AWSCURRENT = Some v ∧ is_Some (versions s !! v).
Proof.
  assert (Hin : ∀ v, v ∈ current_holders s ↔
                     stages s !! AWSCURRENT = Some v ∧ is_Some (versions s !! v)).
  { intros v. unfold current_holders.
    by rewrite list_elem_of_filter, elem_of_elements, elem_of_dom. }
  assert (Hnd : NoDup (current_holders s)).
  { unfold current_holders. apply NoDup_filter, NoDup_elements. }
  generalize dependent (current_holders s). intros l Hin Hnd.
  split.
  - intros Hlen. destruct l as [|v [|? ?]]; try discriminate.
    exists v. apply Hin. constructor.
  - intros (v & Hv). apply Hin in Hv.
    destruct l as [|x [|y l]].
    + by apply elem_of_nil in Hv.
    + reflexivity.
    + exfalso.
      assert (Hx : x ∈ x :: y :: l) by constructor.
      assert (Hy : y ∈ x :: y :: l) by (do 2 constructor).
      apply Hin in Hx as [Hx _]. apply Hin in Hy as [Hy _].
      rewrite Hx in Hy. injection Hy as ->.
      apply NoDup_cons in Hnd as [Hnd _]. apply Hnd. constructor.
Qed.

Lemma populated_GetCurrent (st : gmap (list N) Secret) (sid : list N) :
  populated st sid ↔ is_Some (GetCurrent st sid).
Proof.
  unfold populated, GetCurrent. split.
  - intros (s & -> & Hone). apply current_holders_one in Hone as (v & Hl & Hv).
    cbn. rewrite Hl. done.
  - intros [p Hp]. destruct (st !! sid) as [s|]; [|done]. cbn in Hp.
    exists s. split; [done|]. apply current_holders_one.
    destruct (stages s !! AWSCURRENT) as [v|]; [|done]. cbn in Hp.
    exists v. by rewrite Hp.
Qed.

Lemma populated_alt (st : gmap (list N) Secret) (sid : list N) :
  populated st sid ↔
  ∃ s v, st !! sid = Some s ∧ stages s !! AWSCURRENT = Some v
         ∧ is_Some (versions s !! v).
Proof.
  unfold populated. setoid_rewrite current_holders_one. naive_solver.
Qed.

Lemma attach_lookup_other (labels : list (list N)) (v l : list N)
    (m : gmap (list N) (list N)) :
  l ∉ labels → attach labels v m !! l = m !! l.
Proof.
  induction labels as [|l' labels IH]; [done|].
  intros Hl. apply not_elem_of_cons in Hl as [Hne Hl].
  cbn. rewrite lookup_insert_ne by done. by apply IH.
Qed.

Lemma populated_insert_other (st : gmap (list N) Secret) (sid sid' : list N) (s' : Secret) :
  sid' ≠ sid → populated st sid → populated (<[sid' := s']> st) sid.
Proof.
  intros Hne. rewrite !populated_alt. intros (s & v & Hs & Hv).
  exists s, v. by rewrite lookup_insert_ne.
Qed.

(** Every command that [keeps_current] leaves a populated secret populated. *)
Lemma store_answer_populated (c : Command) (st : gmap (list N) Secret) (sid : list N) :
  keeps_current c → populated st sid → populated (store_answer c st).2 sid.
Proof.
  intros Hc Hpop.
  destruct c as [sid' token str labels|sid' vid label|sid' label moveTo removeFrom];
    unfold store_answer; cbn in *.
  - destruct (st !! sid') as [s'|] eqn:Hs'; [|done].
    destruct (versions s' !! token) as [p|] eqn:Htok; [done|]. cbn.
    destruct (decide (sid' = sid)) as [->|Hne]; [|by apply populated_insert_other].
    apply populated_alt in Hpop as (s & v & Hs & Hv & Hsome).
    assert (s = s') as -> by congruence.
    apply populated_alt. eexists _, v. rewrite lookup_insert_eq.
    split; [done|]. cbn. rewrite attach_lookup_other by done.
    split; [done|]. rewrite lookup_insert_ne; [done|].
    intros ->. rewrite Htok in Hsome. by destruct Hsome.
  - destruct (st !! sid') as [s'|]; [|done].
    destruct (versions s' !! vid); [|done]. by case_decide.
  - destruct (st !! sid') as [s'|] eqn:Hs'; [|done].
    destruct moveTo as [v|].
    + destruct (versions s' !! v) as [p|] eqn:Hv; [|done]. cbn.
      destruct (decide (sid' = sid)) as [->|Hne]; [|by apply populated_insert_other].
      apply populated_alt in Hpop as (s & v0 & Hs & Hv0 & Hsome).
      assert (s = s') as -> by congruence.
      apply populated_alt.
      destruct (decide (label = AWSCURRENT)) as [->|Hl].
      * eexists _, v. rewrite lookup_insert_eq. split; [reflexivity|]. cbn.
        by rewrite lookup_insert_eq, Hv.
      * eexists _, v0. rewrite lookup_insert_eq. split; [reflexivity|]. cbn.
        by rewrite lookup_insert_ne by done.
    + destruct Hc as [[? [=]]|Hl].
      destruct removeFrom as [u|]; [|done].
      case_decide; [|done]. cbn.
      destruct (decide (sid' = sid)) as [->|Hne]; [|by apply populated_insert_other].
      apply populated_alt in Hpop as (s & v0 & Hs & Hv0 & Hsome).
      assert (s = s') as -> by congruence.
      apply populated_alt.
      eexists _, v0. rewrite lookup_insert_eq. split; [reflexivity|]. cbn.
      by rewrite lookup_delete_ne by done.
Qed.

Lemma preserves_lift {A : Type} (P : World → Prop) (o : Outcome A) :
  preserves P (lift o).
Proof. by intros w Hw. Qed.

Lemma preserves_bind {A B : Type} (P : World → Prop) (c : M A) (k : A → M B) :
  preserves P c → (∀ a, preserves P (k a)) → preserves P (bind c k).
Proof.
  intros Hc Hk w Hw. unfold bind. specialize (Hc w Hw).
  destruct (c w) as [[a|e] w']; [by apply Hk | done].
Qed.

(** What the steps do to the world: they draw random bytes, record events
    of their own, and send commands that keep the current stage. A property
    that these three keep is kept by every step, by the handler, and by every
    sequence of invocations. *)
Section StepsPreserve.

Variable JSON_parse : list N → option js_value.
Variable P : World → Prop.
Hypothesis P_randomBytes : ∀ n, preserves P (randomBytes n).
Hypothesis P_record : ∀ e, (∀ c st, e ≠ Sent c st) → preserves P (record e).
Hypothesis P_client_send : ∀ c, keeps_current c → preserves P (client_send c).

Ltac preserves_seq :=
  repeat first [ apply preserves_lift | apply preserves_bind; [|intros ?] ].

Lemma generateSecureExternalId_preserves : preserves P generateSecureExternalId.
Proof using P_randomBytes P_record.
  unfold generateSecureExternalId. preserves_seq; [apply P_randomBytes|].
  by apply P_record.
Qed.

Lemma createSecret_preserves (secretArn token : list N) :
  preserves P (createSecret secretArn token).
Proof using P_randomBytes P_record P_client_send.
  apply preserves_bind; [apply generateSecureExternalId_preserves|]. intros candidate.
  preserves_seq. apply P_client_send. cbn.
  intros H%list_elem_of_singleton. by apply AWSCURRENT_ne_AWSPENDING.
Qed.

Lemma testSecret_preserves (secretArn token : list N) :
  preserves P (testSecret JSON_parse secretArn token).
Proof using P_record P_client_send.
  apply preserves_bind; [by apply P_client_send|]. intros response.
  destruct (SecretString response) as [[|c s]|]; try apply preserves_lift.
  destruct (JSON_parse (c :: s)); [|apply preserves_lift].
  unfold call_validateExternalId. preserves_seq; [by apply P_record|].
  destruct (validateExternalId _); apply preserves_lift.
Qed.

Lemma finishSecret_preserves (secretArn token : list N) (prev : option (list N)) :
  preserves P (finishSecret secretArn token prev).
Proof using P_client_send.
  apply preserves_bind; [apply P_client_send; cbn; eauto|]. intros _.
  destruct (truthy prev); preserves_seq.
  apply P_client_send. right. intros H. by apply AWSCURRENT_ne_AWSPENDING.
Qed.

Lemma handler_preserves (event : RotationEvent) :
  preserves P (handler JSON_parse event).
Proof using P_randomBytes P_record P_client_send.
  apply preserves_bind; [|intros _; apply preserves_lift].
  repeat case_decide.
  - apply createSecret_preserves.
  - apply preserves_lift.
  - apply testSecret_preserves.
  - apply finishSecret_preserves.
  - apply preserves_lift.
Qed.

Lemma invoke_all_preserves (events : list RotationEvent) (w : World) :
  P w → P (invoke_all JSON_parse events w).
Proof using P_randomBytes P_record P_client_send.
  revert w. induction events as [|event events IH]; intros w Hw; [done|].
  cbn. apply IH. by apply handler_preserves.
Qed.

End StepsPreserve.

Section NoGap.

Variable sid : list N.

Lemma record_keeps_current (e : Event) :
  (∀ c st, e ≠ Sent c st) → preserves (never_without_current sid) (record e).
Proof.
  intros He w [Hpop Hall]. split; [done|]. cbn.
  rewrite snapshots_app.
  destruct e as [| |c after|]; cbn; rewrite ?app_nil_r; try done.
  by destruct (He c after).
Qed.

Lemma randomBytes_keeps_current (n : nat) :
  preserves (never_without_current sid) (randomBytes n).
Proof. intros w Hw. unfold randomBytes. by case_decide. Qed.

(** After a request, answered or lost, the store it leaves is populated and
    recorded as such. *)
Lemma client_send_keeps_current (c : Command) :
  keeps_current c → preserves (never_without_current sid) (client_send c).
Proof.
  intros Hc w [Hpop Hall]. unfold client_send.
  pose proof (store_answer_populated c (store w) sid Hc Hpop) as Hpop'.
  assert (Hsent : ∀ fs, never_without_current sid
            (mkWorld (store_answer c (store w)).2 (entropy w) fs
               (journal w ++ [Sent c (store_answer c (store w)).2]))).
  { split; [done|]. cbn. rewrite snapshots_app. apply Forall_app. split; [done|].
    by repeat constructor. }
  destruct (faults w) as [|[] rest].
  - specialize (Hsent []). by destruct (store_answer c (store w)).
  - specialize (Hsent rest). by destruct (store_answer c (store w)).
  - split; [done|]. cbn. by rewrite snapshots_app, app_nil_r.
  - specialize (Hsent rest). by destruct (store_answer c (store w)).
Qed.

End NoGap.

(** ** The journal records every state of the store *)

Section Tracked.

Variable st0 : gmap (list N) Secret.

Lemma record_tracked (e : Event) :
  (∀ c st, e ≠ Sent c st) → preserves (tracked st0) (record e).
Proof.
  intros He w Hw. unfold tracked in *. cbn. rewrite snapshots_app.
  destruct e as [| |c after|]; cbn; rewrite ?app_nil_r; try done.
  by destruct (He c after).
Qed.

Lemma randomBytes_tracked (n : nat) : preserves (tracked st0) (randomBytes n).
Proof. intros w Hw. unfold randomBytes. by case_decide. Qed.

Lemma client_send_tracked (c : Command) : preserves (tracked st0) (client_send c).
Proof.
  intros w Hw. unfold tracked, client_send in *.
  destruct (faults w) as [|[] rest]; try destruct (store_answer c (store w));
    cbn; rewrite snapshots_app; cbn; rewrite ?app_nil_r; try done;
    by rewrite app_comm_cons, last_snoc.
Qed.

(** Whatever the trigger invokes, the store is the last state recorded: the
    recorded states are all the states the store goes through. *)
Lemma invoke_all_tracked (JSON_parse : list N → option js_value)
    (events : list RotationEvent) (w : World) :
  tracked st0 w → tracked st0 (invoke_all JSON_parse events w).
Proof.
  apply invoke_all_preserves.
  - apply randomBytes_tracked.
  - apply record_tracked.
  - intros c _. apply client_send_tracked.
Qed.

End Tracked.

(** C2: once a secret has exactly one version holding [AWSCURRENT], it has
    exactly one after every sequence of invocations of the handler, and in
    every state the store went through on the way, between the two requests
    of [finishSecret] included: no reader of the current stage finds it
    absent. *)
Theorem no_gap (JSON_parse : list N → option js_value) (sid : list N)
    (events : list RotationEvent) (w : World) :
  never_without_current sid w →
  never_without_current sid (invoke_all JSON_parse events w).
Proof.
  apply invoke_all_preserves.
  - apply randomBytes_keeps_current.
  - apply record_keeps_current.
  - apply client_send_keeps_current.
Qed.

Lemma sample_world_populated : never_without_current (lit "s1") sample_world.
Proof.
  split; [|constructor].
  exists sample_secret. split; by vm_compute.
Qed.

Lemma no_gap_witness :
  never_without_current (lit "s1") sample_world
  ∧ never_without_current (lit "s1")
      (invoke_all sample_JSON_parse sample_rotation sample_world).
Proof.
  split; [exact sample_world_populated|].
  apply (no_gap sample_JSON_parse (lit "s1") sample_rotation sample_world).
  exact sample_world_populated.
Defined.

(** One full rotation of the sample secret: four requests reach the store,
    and the current stage ends on the new external id. *)
Example sample_rotation_end_to_end :
  let w := invoke_all sample_JSON_parse sample_rotation sample_world in
  length (snapshots (journal w)) = 4%nat
  ∧ GetCurrent (store sample_world) (lit "s1")
    = Some (Some (JSON_stringify_SecretData (lit "OldExternalId0")))
  ∧ GetCurrent (store w) (lit "s1")
    = Some (Some (JSON_stringify_SecretData (replicate 32 72)))
  ∧ GetPending (store w) (lit "s1") (lit "v0") = None.
Proof. vm_compute. done. Qed.

(** ** What one request does *)

Lemma store_answer_Thrown (c : Command) (st st' : gmap (list N) Secret) (e : Error) :
  store_answer c st = (Thrown e, st') → st' = st.
Proof.
  destruct c as [sid token str labels|sid vid label|sid label moveTo removeFrom];
    unfold store_answer.
  - destruct (st !! sid) as [s|]; [|congruence].
    destruct (versions s !! token); congruence.
  - destruct (st !! sid) as [s|]; [|congruence].
    destruct (versions s !! vid); [|congruence]. case_decide; congruence.
  - destruct (st !! sid) as [s|]; [|congruence].
    destruct moveTo as [v|].
    + destruct (versions s !! v); congruence.
    + destruct removeFrom as [u|]; [|congruence]. case_decide; congruence.
Qed.

Lemma client_send_Returned (c : Command) (w w' : World) (r : Response) :
  client_send c w = (Returned r, w') →
  store_answer c (store w) = (Returned r, store w')
  ∧ entropy w' = entropy w
  ∧ faults w' = tail (faults w)
  ∧ journal w' = journal w ++ [Sent c (store w')].
Proof.
  unfold client_send. intros H.
  destruct (faults w) as [|[] rest]; try discriminate;
    destruct (store_answer c (store w)) as [a st]; try discriminate;
    by injection H as -> <-.
Qed.

(** A request that fails: the store refused it and is as it was; or the
    request never reached the store, which is as it was; or the store carried
    the command out and its answer was lost. *)
Lemma client_send_Thrown (c : Command) (w w' : World) (e : Error) :
  client_send c w = (Thrown e, w') →
  entropy w' = entropy w
  ∧ faults w' = tail (faults w)
  ∧ ((store_answer c (store w) = (Thrown e, store w)
      ∧ head (faults w) ≠ Some RequestLost ∧ head (faults w) ≠ Some ResponseLost
      ∧ store w' = store w
      ∧ journal w' = journal w ++ [Sent c (store w)])
     ∨ (e = StoreUnavailable ∧ head (faults w) = Some RequestLost
        ∧ store w' = store w
        ∧ journal w' = journal w ++ [Lost c])
     ∨ (e = StoreUnavailable ∧ head (faults w) = Some ResponseLost
        ∧ store w' = (store_answer c (store w)).2
        ∧ journal w' = journal w ++ [Sent c (store w')])).
Proof.
  unfold client_send. intros H.
  destruct (faults w) as [|[] rest] eqn:Hf.
  - destruct (store_answer c (store w)) as [a st] eqn:Ha. injection H as -> <-.
    pose proof (store_answer_Thrown _ _ _ _ Ha) as ->. cbn. naive_solver.
  - destruct (store_answer c (store w)) as [a st] eqn:Ha. injection H as -> <-.
    pose proof (store_answer_Thrown _ _ _ _ Ha) as ->. cbn. naive_solver.
  - injection H as <- <-. cbn. naive_solver.
  - destruct (store_answer c (store w)) as [a st] eqn:Ha. injection H as <- <-.
    cbn. naive_solver.
Qed.

(** ** Step 4 *)

Lemma store_answer_move_Returned (st st' : gmap (list N) Secret)
    (sid label v : list N) (prev : option (list N)) (r : Response) :
  store_answer (UpdateSecretVersionStageCommand sid label (Some v) prev) st
    = (Returned r, st') →
  ∃ s, st !! sid = Some s ∧ is_Some (versions s !! v)
       ∧ st' = <[sid := mkSecret (versions s) (<[label := v]> (stages s))]> st.
Proof.
  unfold store_answer. destruct (st !! sid) as [s|]; [|discriminate].
  destruct (versions s !! v) as [p|] eqn:Hv; [|discriminate].
  intros [= _ <-]. exists s. by rewrite Hv.
Qed.

Lemma store_answer_remove (st : gmap (list N) Secret) (sid label u : list N) (s : Secret) :
  st !! sid = Some s →
  store_answer (UpdateSecretVersionStageCommand sid label None (Some u)) st =
  (Returned (mkResponse None),
   if decide (stages s !! label = Some u)
   then <[sid := mkSecret (versions s) (delete label (stages s))]> st
   else st).
Proof. intros Hs. unfold store_answer. rewrite Hs. by case_decide. Qed.

Lemma truthy_Some (prev : option (list N)) :
  truthy prev = true → ∃ u, prev = Some u.
Proof. destruct prev as [[|c u]|]; try discriminate. eauto. Qed.

(** A [finishSecret] that returned has moved [AWSCURRENT] onto the version
    of the token. *)
Lemma finishSecret_Returned (sid token : list N) (prev : option (list N)) (w w' : World) :
  finishSecret sid token prev w = (Returned tt, w') →
  finished (store w') sid token prev.
Proof.
  unfold finishSecret, bind. intros H.
  destruct (client_send _ w) as [[r1|e1] w1] eqn:H1; [|discriminate].
  apply client_send_Returned in H1 as (Ha1 & _).
  apply store_answer_move_Returned in Ha1 as (s & Hs & Htok & Hst1).
  destruct (truthy prev) eqn:Hp.
  - destruct (truthy_Some _ Hp) as [u ->].
    destruct (client_send _ w1) as [[r2|e2] w2] eqn:H2; [|discriminate].
    injection H as <-.
    apply client_send_Returned in H2 as (Ha2 & _).
    erewrite store_answer_remove in Ha2 by (rewrite Hst1; apply lookup_insert_eq).
    injection Ha2 as _ Hst2. cbn in Hst2. rewrite <-Hst2.
    case_decide as Hpend.
    + eexists. rewrite lookup_insert_eq. split; [reflexivity|]. cbn.
      split; [done|]. rewrite lookup_delete_ne by (symmetry; apply AWSCURRENT_ne_AWSPENDING).
      rewrite lookup_insert_eq. split; [done|]. intros _.
      by rewrite lookup_delete_eq.
    + rewrite Hst1. eexists. rewrite lookup_insert_eq. split; [reflexivity|]. cbn.
      split; [done|]. rewrite lookup_insert_eq. split; [done|]. intros _ Heq.
      by rewrite Heq in Hpend.
  - injection H as <-. rewrite Hst1.
    eexists. rewrite lookup_insert_eq. split; [reflexivity|]. cbn.
    rewrite lookup_insert_eq. repeat split; [done|]. by rewrite Hp.
Qed.

(** On a store that [finishSecret] has finished, [finishSecret] returns and
    changes nothing in it. *)
Lemma finishSecret_finished (sid token : list N) (prev : option (list N)) (w : World) :
  finished (store w) sid token prev → online 2 w →
  ∃ w', finishSecret sid token prev w = (Returned tt, w') ∧ store w' = store w.
Proof.
  intros (s & Hs & [p Htok] & Hcur & Hpend) Hon.
  assert (Hon1 : online 1 w).
  { unfold online in *. destruct (faults w) as [|b rest]; [constructor|].
    inversion Hon; subst. by repeat constructor. }
  assert (Hmove : ∀ prev', store_answer
            (UpdateSecretVersionStageCommand sid AWSCURRENT (Some token) prev') (store w)
          = (Returned (mkResponse None), store w)).
  { intros prev'. unfold store_answer. rewrite Hs, Htok. do 2 f_equal.
    rewrite (insert_id (stages s)) by done. destruct s. by apply insert_id. }
  unfold finishSecret, bind. rewrite client_send_online by done. rewrite Hmove. cbn.
  destruct (truthy prev) eqn:Hp; [|by eexists].
  destruct (truthy_Some _ Hp) as [u ->].
  rewrite client_send_online by (by eapply online_tail).
  cbn [store]. erewrite store_answer_remove by done.
  rewrite decide_False by (intros Heq; by apply (Hpend eq_refl)).
  by eexists.
Qed.

Example finishSecret_twice :
  let w1 := invoke_all sample_JSON_parse sample_rotation sample_world in
  let w2 := (finishSecret (lit "s1") (lit "t1") (Some (lit "v0")) w1) in
  w2.1 = Returned tt ∧ store w2.2 = store w1.
Proof. vm_compute. done. Qed.

(** C6: after a [finishSecret] that returned, a second [finishSecret] with
    the same token and the same previous version id, whose requests reach the
    store, returns as well and leaves the store as it was: the same version
    holds [AWSCURRENT], with the same value. *)
Theorem finishSecret_retry (sid token : list N) (prev : option (list N)) (w w1 : World) :
  finishSecret sid token prev w = (Returned tt, w1) →
  online 2 w1 →
  ∃ w2, finishSecret sid token prev w1 = (Returned tt, w2)
        ∧ store w2 = store w1
        ∧ GetCurrent (store w2) sid = GetCurrent (store w1) sid
        ∧ ∃ s, store w2 !! sid = Some s ∧ current_holders s = [token].
Proof.
  intros Hfirst Hon.
  pose proof (finishSecret_Returned _ _ _ _ _ Hfirst) as Hfin.
  destruct (finishSecret_finished _ _ _ _ Hfin Hon) as (w2 & Hsecond & Hst).
  exists w2. rewrite Hst. repeat split; [done|].
  destruct Hfin as (s & Hs & Htok & Hcur & _). exists s. split; [done|].
  assert (Hone : length (current_holders s) = 1%nat)
    by (apply current_holders_one; eauto).
  destruct (current_holders s) as [|v [|? ?]] eqn:Hh; try discriminate.
  assert (Hv : v ∈ current_holders s) by (rewrite Hh; constructor).
  unfold current_holders in Hv. apply list_elem_of_filter in Hv as [Hv _].
  congruence.
Qed.

Lemma finishSecret_retry_witness :
  let w1 := invoke_all sample_JSON_parse sample_rotation sample_world in
  ∃ w2, finishSecret (lit "s1") (lit "t1") (Some (lit "v0")) w1 = (Returned tt, w2)
        ∧ store w2 = store w1
        ∧ GetCurrent (store w2) (lit "s1") = GetCurrent (store w1) (lit "s1")
        ∧ ∃ s, store w2 !! lit "s1" = Some s ∧ current_holders s = [lit "t1"].
Proof.
  intros w1.
  apply (finishSecret_retry (lit "s1") (lit "t1") (Some (lit "v0"))
           (invoke_all sample_JSON_parse
              [sample_event "createSecret"; sample_event "setSecret";
               sample_event "testSecret"] sample_world) w1).
  - vm_compute. reflexivity.
  - constructor.
Defined.

Example finishSecret_second_request_lost :
  (finishSecret (lit "s1") (lit "t1") (Some (lit "v0")) sample_world_flaky).1
  = Thrown StoreUnavailable.
Proof. vm_compute. reflexivity. Qed.

(** When only the answer to the first request is lost, [finishSecret] throws
    at its first [await] and the current stage has moved all the same. *)
Example finishSecret_first_answer_lost :
  let w := mkWorld (store sample_world_tested) (entropy sample_world_tested)
             [ResponseLost] (journal sample_world_tested) in
  let result := finishSecret (lit "s1") (lit "t1") (Some (lit "v0")) w in
  result.1 = Thrown StoreUnavailable
  ∧ length (requests (drop (length (journal w)) (journal result.2))) = 1%nat
  ∧ GetCurrent (store result.2) (lit "s1") ≠ GetCurrent (store w) (lit "s1").
Proof. vm_compute. repeat split; discriminate. Qed.




(** ** Step 1 *)

Lemma createSecret_online (sid token : list N) (w : World) :
  (32 ≤ length (entropy w))%nat → online 1 w →
  createSecret sid token w =
  let candidate := externalId_of (take 32 (entropy w)) in
  let command :=
    PutSecretValueCommand sid token (JSON_stringify_SecretData candidate) [AWSPENDING] in
  let answer := store_answer command (store w) in
  (match answer.1 with
   | Returned _ => Returned tt
   | Thrown e => Thrown e
   end,
   mkWorld answer.2 (drop 32 (entropy w)) (tail (faults w))
     (journal w ++ [Generated candidate; Sent command answer.2])).
Proof.
  intros Hlen Hon.
  unfold createSecret, generateSecureExternalId, bind, randomBytes, record, ret, lift.
  rewrite decide_True by done. cbn.
  rewrite client_send_online by done. cbn.
  rewrite <-app_assoc. cbn.
  by destruct (store_answer _ (store w)) as [[[]|e] st].
Qed.

Lemma store_answer_put (st : gmap (list N) Secret) (sid token str : list N)
    (labels : list (list N)) (s : Secret) :
  st !! sid = Some s →
  store_answer (PutSecretValueCommand sid token str labels) st =
  (Returned (mkResponse None),
   match versions s !! token with
   | Some _ => st
   | None => <[sid := mkSecret (<[token := Some str]> (versions s))
                               (attach labels token (stages s))]> st
   end).
Proof. intros Hs. unfold store_answer. rewrite Hs. by destruct (versions s !! token). Qed.

(** C1, as stated, fails: a second [createSecret] with the same token
    generates a second candidate, different from the pending one, and draws
    its 32 bytes from the random source; a third one, with the source
    exhausted, throws although the pending version exists. *)
Lemma createSecret_regenerates :
  let w1 := (createSecret (lit "s1") (lit "t1") sample_world).2 in
  let w2 := (createSecret (lit "s1") (lit "t1") w1).2 in
  GetPending (store w1) (lit "s1") (lit "t1")
  = Some (Some (JSON_stringify_SecretData (replicate 32 72)))
  ∧ generated (journal w1) = [replicate 32 72]
  ∧ generated (journal w2) = [replicate 32 72; replicate 32 113]
  ∧ length (entropy w1) = 32%nat
  ∧ length (entropy w2) = 0%nat
  ∧ GetPending (store w2) (lit "s1") (lit "t1")
    = Some (Some (JSON_stringify_SecretData (replicate 32 72)))
  ∧ (createSecret (lit "s1") (lit "t1") w2).1 = Thrown EntropySourceError.
Proof. vm_compute. done. Qed.

(** C1, amended: [createSecret] generates a candidate on every invocation
    and sends it to the store; it has no branch for a pending version that
    already exists. With the store's no-op success on an existing token, two
    invocations with the same token, on a transport that delivers and a
    random source that has the 64 bytes, both return and leave exactly one
    version of the token: for a fresh token it holds the first candidate and
    carries [AWSPENDING]; the second candidate is generated and dropped. *)
Theorem createSecret_twice (sid token : list N) (w : World) (s : Secret) :
  store w !! sid = Some s →
  (64 ≤ length (entropy w))%nat →
  online 2 w →
  let first := externalId_of (take 32 (entropy w)) in
  let second := externalId_of (take 32 (drop 32 (entropy w))) in
  ∃ w1 w2,
    createSecret sid token w = (Returned tt, w1)
    ∧ createSecret sid token w1 = (Returned tt, w2)
    ∧ store w2 = store w1
    ∧ store w1 =
        match versions s !! token with
        | Some _ => store w
        | None =>
            <[sid := mkSecret (<[token := Some (JSON_stringify_SecretData first)]> (versions s))
                              (<[AWSPENDING := token]> (stages s))]> (store w)
        end
    ∧ (versions s !! token = None →
       GetPending (store w2) sid token = Some (Some (JSON_stringify_SecretData first)))
    ∧ generated (journal w2) = generated (journal w) ++ [first; second]
    ∧ entropy w2 = drop 64 (entropy w).
Proof.
  intros Hs Hlen Hon first second.
  assert (Hon1 : online 1 w).
  { unfold online in *. destruct (faults w) as [|b rest]; [constructor|].
    inversion Hon; subst. by repeat constructor. }
  rewrite createSecret_online by (done || lia).
  cbn zeta. erewrite store_answer_put by done. cbn [fst snd].
  set (st1 := match versions s !! token with Some _ => store w | None => _ end).
  set (w1 := mkWorld st1 _ _ _).
  assert (Hs1 : ∃ s1, st1 !! sid = Some s1 ∧ is_Some (versions s1 !! token)
                      ∧ (versions s !! token = None →
                         stages s1 !! AWSPENDING = Some token
                         ∧ versions s1 !! token = Some (Some (JSON_stringify_SecretData first)))).
  { subst st1. destruct (versions s !! token) as [p|] eqn:Htok.
    - exists s. by rewrite Htok.
    - eexists. rewrite lookup_insert_eq. split; [reflexivity|]. cbn.
      by rewrite !lookup_insert_eq. }
  destruct Hs1 as (s1 & Hs1 & [p1 Htok1] & Hfresh).
  exists w1. eexists. split; [reflexivity|].
  rewrite createSecret_online; cycle 1.
  { cbn. rewrite length_drop. lia. }
  { by eapply online_tail. }
  cbn zeta. erewrite store_answer_put by done. rewrite Htok1. cbn [fst snd].
  split; [reflexivity|]. cbn [store journal entropy].
  split; [done|]. split; [done|]. split.
  { intros Hnone. destruct (Hfresh Hnone) as [Hpend Hval].
    unfold GetPending. change (store w1) with st1. rewrite Hs1. cbn.
    by rewrite decide_True. }
  split.
  - subst w1. cbn [journal entropy]. rewrite !generated_app. cbn.
    by rewrite <-app_assoc.
  - subst w1. cbn [entropy]. by rewrite drop_drop.
Qed.

Lemma createSecret_twice_witness :
  ∃ w1 w2,
    createSecret (lit "s1") (lit "t1") sample_world = (Returned tt, w1)
    ∧ createSecret (lit "s1") (lit "t1") w1 = (Returned tt, w2)
    ∧ store w2 = store w1
    ∧ GetPending (store w2) (lit "s1") (lit "t1")
      = Some (Some (JSON_stringify_SecretData (replicate 32 72)))
    ∧ generated (journal w2) = [replicate 32 72; replicate 32 113].
Proof.
  assert (Hs : store sample_world !! lit "s1" = Some sample_secret) by by vm_compute.
  assert (Hlen : (64 ≤ length (entropy sample_world))%nat) by (vm_compute; lia).
  assert (Hon : online 2 sample_world) by constructor.
  destruct (createSecret_twice (lit "s1") (lit "t1") sample_world sample_secret Hs Hlen Hon)
    as (w1 & w2 & H1 & H2 & Hst & _ & Hpend & Hgen & _).
  exists w1, w2. repeat split; [done..| |done].
  apply Hpend. by vm_compute.
Defined.

(** ** Where the validator is called *)

Section ValidatorCalls.

Variable seen : list js_value.

Lemma randomBytes_no_call (n : nat) : preserves (calls_are seen) (randomBytes n).
Proof. intros w Hw. unfold randomBytes. by case_decide. Qed.

Lemma record_no_call (e : Event) :
  (∀ v, e ≠ Validated v) → preserves (calls_are seen) (record e).
Proof.
  intros He w Hw. unfold calls_are in *. cbn. rewrite validated_app, Hw.
  destruct e as [|v| |]; cbn; rewrite ?app_nil_r; try done.
  by destruct (He v).
Qed.

Lemma client_send_no_call (c : Command) : preserves (calls_are seen) (client_send c).
Proof.
  intros w Hw. unfold calls_are, client_send in *.
  destruct (faults w) as [|[] rest]; try destruct (store_answer c (store w));
    cbn; by rewrite validated_app, Hw, app_nil_r.
Qed.

Lemma createSecret_no_call (sid token : list N) :
  preserves (calls_are seen) (createSecret sid token).
Proof.
  apply preserves_bind.
  - apply preserves_bind; [apply randomBytes_no_call|]. intros rv.
    apply preserves_bind; [by apply record_no_call|]. intros _.
    apply preserves_lift.
  - intros c. apply preserves_bind; [apply client_send_no_call|].
    intros _. apply preserves_lift.
Qed.

End ValidatorCalls.

(** C5, as stated, fails: [createSecret] returns with the candidate staged
    and the validator never called. *)
Lemma createSecret_stages_unvalidated :
  let result := createSecret (lit "s1") (lit "t1") sample_world in
  result.1 = Returned tt
  ∧ generated (journal result.2) = [replicate 32 72]
  ∧ GetPending (store result.2) (lit "s1") (lit "t1")
    = Some (Some (JSON_stringify_SecretData (replicate 32 72)))
  ∧ validated (journal result.2) = []
  ∧ JString (replicate 32 72) ∉ validated (journal result.2).
Proof. vm_compute. repeat split; try done. apply not_elem_of_nil. Qed.

(** C5, amended: the validator has one call site. [createSecret] never
    calls it: the candidate goes from the generator to the store as it is.
    [testSecret] calls it once, on the external id of the payload the store
    returned for the pending version of the token, and ends with its verdict;
    when the request or the reading of the payload fails, [testSecret] ends
    with that error and the validator is not called. *)
Theorem validator_call_sites (JSON_parse : list N → option js_value)
    (sid token : list N) (w : World) :
  validated (journal (createSecret sid token w).2) = validated (journal w)
  ∧ let result := testSecret JSON_parse sid token w in
    match client_send (GetSecretValueCommand sid token AWSPENDING) w with
    | (Returned response, _) =>
        GetPending (store w) sid token = Some (SecretString response)
        ∧ match stored_externalId JSON_parse (SecretString response) with
          | Returned v =>
              validated (journal result.2) = validated (journal w) ++ [v]
              ∧ result.1 = match validateExternalId v with
                           | Some reason => Thrown (ValidationError reason)
                           | None => Returned tt
                           end
          | Thrown e =>
              validated (journal result.2) = validated (journal w)
              ∧ result.1 = Thrown e
          end
    | (Thrown e, _) =>
        validated (journal result.2) = validated (journal w)
        ∧ result.1 = Thrown e
    end.
Proof.
  split; [by apply (createSecret_no_call (validated (journal w)))|].
  cbv zeta. unfold testSecret, bind.
  destruct (client_send _ w) as [[response|e] w1] eqn:Hsend.
  - pose proof (client_send_no_call (validated (journal w))
                  (GetSecretValueCommand sid token AWSPENDING) w eq_refl) as Hcalls.
    rewrite Hsend in Hcalls. unfold calls_are in Hcalls. cbn in Hcalls.
    apply client_send_Returned in Hsend as (Hanswer & _).
    rewrite store_answer_GetPending in Hanswer.
    split.
    { destruct (GetPending (store w) sid token) as [payload|]; [|discriminate].
      by injection Hanswer as <- _. }
    unfold stored_externalId.
    destruct (SecretString response) as [[|c s]|]; try done.
    destruct (JSON_parse (c :: s)) as [d|]; [|done].
    unfold lift. destruct (get_externalId d) as [v|e]; [|done].
    unfold call_validateExternalId, bind, record. cbn.
    destruct (validateExternalId v); cbn; by rewrite validated_app, Hcalls.
  - pose proof (client_send_no_call (validated (journal w))
                  (GetSecretValueCommand sid token AWSPENDING) w eq_refl) as Hcalls.
    rewrite Hsend in Hcalls. done.
Qed.

(** * Further properties *)

(** ** Validation of the stack properties *)

Lemma digits_anchored_spec (n : nat) (s : list N) :
  digits_anchored n s = true ↔ length s = n ∧ Forall (λ c, digit c = true) s.
Proof.
  revert s. induction n as [|n IH]; intros [|c s]; cbn.
  - split; [by split; [|constructor] | done].
  - split; [done | by intros [? _]].
  - split; [done | by intros [? _]].
  - rewrite andb_true_iff, IH, Forall_cons. split.
    + intros (? & <- & ?). done.
    + intros ([= <-] & ? & ?). done.
Qed.

Lemma startsWith_spec (s p : list N) :
  startsWith s p = true ↔ ∃ rest, s = p ++ rest.
Proof.
  unfold startsWith. rewrite bool_decide_eq_true. split.
  - intros H. exists (drop (length p) s). by rewrite <-H at 1; rewrite take_drop.
  - intros [rest ->]. by rewrite take_app_length.
Qed.

Lemma includes_spec (s sub : list N) :
  includes s sub = true ↔ ∃ before after, s = before ++ sub ++ after.
Proof.
  induction s as [|c s IH]; cbn [includes]; rewrite orb_true_iff, startsWith_spec.
  - split.
    + intros [[rest H]|?]; [|done]. by exists [], rest.
    + intros (before & after & H). left.
      symmetry in H. apply app_eq_nil in H as [-> H].
      apply app_eq_nil in H as [-> ->]. by exists [].
  - rewrite IH. split.
    + intros [[rest ->]|(before & after & ->)].
      * by exists [], rest.
      * by exists (c :: before), after.
    + intros ([|c' before] & after & H).
      * left. by exists after.
      * right. injection H as <- ->. by exists before, after.
Qed.

Lemma forEach_throws_None (ok : list N → bool) (arr : list (list N)) (index : nat) :
  forEach_throws ok arr index = None ↔ Forall (λ arn, ok arn = true) arr.
Proof.
  revert index. induction arr as [|arn arr IH]; intros index; cbn.
  - split; [constructor | done].
  - rewrite Forall_cons. destruct (ok arn); [rewrite IH; naive_solver|].
    split; [done | by intros [? _]].
Qed.

Lemma forEach_throws_Some (ok : list N → bool) (arr : list (list N)) (index k : nat) :
  forEach_throws ok arr index = Some k ↔
  ∃ j arn, k = (index + j)%nat ∧ arr !! j = Some arn ∧ ok arn = false
           ∧ Forall (λ arn', ok arn' = true) (take j arr).
Proof.
  revert index. induction arr as [|arn arr IH]; intros index; cbn.
  - split; [done | by intros (j & ? & _ & ? & _)].
  - destruct (ok arn) eqn:Hok.
    + rewrite IH. split.
      * intros (j & arn' & -> & Hj & Hfail & Hall).
        exists (S j), arn'. cbn. repeat split; [lia|done..|].
        by constructor.
      * intros ([|j] & arn' & -> & Hj & Hfail & Hall); cbn in *.
        { injection Hj as <-. congruence. }
        exists j, arn'. repeat split; [lia|done..|].
        by inversion Hall.
    + split.
      * intros [= <-]. exists 0%nat, arn. cbn. repeat split; [lia|done|constructor].
      * intros ([|j] & arn' & -> & Hj & Hfail & Hall); [f_equal; lia|].
        cbn in Hall. inversion Hall; congruence.
Qed.

Example validateProps_defaultProps : validateProps defaultProps = None.
Proof. vm_compute. reflexivity. Qed.

Example validateProps_invalid_account :
  validateProps (mkProps (Some (lit "invalid-account-id"))
                         (externalPrincipalArns defaultProps) (s3BucketArns defaultProps))
  = Some InvalidAccountId.
Proof. vm_compute. reflexivity. Qed.

Example validateProps_invalid_principal :
  validateProps (mkProps (externalAccountId defaultProps)
                         (Some [lit "invalid-arn"]) (s3BucketArns defaultProps))
  = Some (InvalidPrincipalArn 0).
Proof. vm_compute. reflexivity. Qed.

Example validateProps_invalid_bucket :
  validateProps (mkProps (externalAccountId defaultProps)
                         (externalPrincipalArns defaultProps) (Some [lit "invalid-s3-arn"]))
  = Some (InvalidBucketArn 0).
Proof. vm_compute. reflexivity. Qed.

Lemma validateProps_checks (accountId : list N) (principals buckets : list (list N)) :
  digits_anchored 12 accountId = true → principals ≠ [] → buckets ≠ [] →
  validateProps (mkProps (Some accountId) (Some principals) (Some buckets)) =
  match forEach_throws (principal_ok accountId) principals 0 with
  | Some index => Some (InvalidPrincipalArn index)
  | None =>
      match forEach_throws bucket_ok buckets 0 with
      | Some index => Some (InvalidBucketArn index)
      | None => None
      end
  end.
Proof.
  intros Hid Hp Hb. unfold validateProps. cbn [externalAccountId externalPrincipalArns s3BucketArns negb].
  destruct accountId as [|c accountId]; [discriminate|]. rewrite Hid. cbn [negb].
  destruct principals; [done|]. by destruct buckets.
Qed.

(** X1: [validateProps] returns exactly when the account id is 12 ASCII
    digits, both lists are present and not empty, every principal ARN starts
    with [arn:aws:iam::] and has the account id somewhere in it, and every
    bucket ARN starts with [arn:aws:s3:::]. *)
Theorem validateProps_accepts (props : CrossAccountAccessStackProps) :
  validateProps props = None ↔
  ∃ accountId principals buckets,
    props = mkProps (Some accountId) (Some principals) (Some buckets)
    ∧ length accountId = 12%nat ∧ Forall (λ c, digit c = true) accountId
    ∧ principals ≠ [] ∧ buckets ≠ []
    ∧ Forall (λ arn, (∃ rest, arn = lit "arn:aws:iam::" ++ rest)
                     ∧ ∃ before after, arn = before ++ accountId ++ after) principals
    ∧ Forall (λ arn, ∃ rest, arn = lit "arn:aws:s3:::" ++ rest) buckets.
Proof.
  split.
  - destruct props as [accountId principals buckets]. unfold validateProps.
    cbn [externalAccountId externalPrincipalArns s3BucketArns negb].
    destruct accountId as [[|c accountId]|]; try discriminate.
    destruct (digits_anchored 12 (c :: accountId)) eqn:Hid; cbn [negb]; [|discriminate].
    destruct principals as [[|p principals]|]; try discriminate.
    destruct buckets as [[|b buckets]|]; try discriminate.
    destruct (forEach_throws (principal_ok _) _ _) eqn:Hp; [discriminate|].
    destruct (forEach_throws bucket_ok _ _) eqn:Hb; [discriminate|].
    intros _. apply digits_anchored_spec in Hid as [Hlen Hdig].
    apply forEach_throws_None in Hp, Hb.
    eexists _, _, _. split; [reflexivity|]. repeat split; try done.
    + eapply Forall_impl; [exact Hp|]. intros arn Hok. unfold principal_ok in Hok.
      apply andb_true_iff in Hok as [H1 H2].
      by apply startsWith_spec in H1; apply includes_spec in H2.
    + eapply Forall_impl; [exact Hb|]. intros arn Hok. by apply startsWith_spec in Hok.
  - intros (accountId & principals & buckets & -> & Hlen & Hdig & Hp & Hb & Hps & Hbs).
    rewrite validateProps_checks; [|by apply digits_anchored_spec|done..].
    assert (forEach_throws (principal_ok accountId) principals 0 = None) as ->.
    { apply forEach_throws_None. eapply Forall_impl; [exact Hps|].
      intros arn [H1 H2]. unfold principal_ok. apply andb_true_iff.
      by split; [apply startsWith_spec | apply includes_spec]. }
    assert (forEach_throws bucket_ok buckets 0 = None) as ->; [|done].
    apply forEach_throws_None. eapply Forall_impl; [exact Hbs|].
    intros arn H. by apply startsWith_spec.
Qed.

Lemma validateProps_arn_error (props : CrossAccountAccessStackProps) (e : PropsError) :
  validateProps props = Some e →
  (∃ index, e = InvalidPrincipalArn index ∨ e = InvalidBucketArn index) →
  ∃ accountId principals buckets,
    props = mkProps (Some accountId) (Some principals) (Some buckets)
    ∧ digits_anchored 12 accountId = true ∧ principals ≠ [] ∧ buckets ≠ [].
Proof.
  intros H [index He].
  destruct props as [accountId principals buckets]. unfold validateProps in H.
  cbn [externalAccountId externalPrincipalArns s3BucketArns negb] in H.
  destruct accountId as [[|c accountId]|];
    try (injection H as <-; destruct He; discriminate).
  destruct (digits_anchored 12 (c :: accountId)) eqn:Hid; cbn [negb] in H;
    [|injection H as <-; destruct He; discriminate].
  destruct principals as [[|p principals]|];
    try (injection H as <-; destruct He; discriminate).
  destruct buckets as [[|b buckets]|];
    try (injection H as <-; destruct He; discriminate).
  eexists _, _, _. done.
Qed.

(** X2: the index in an error of [validateProps] is that of the first ARN
    that fails. [InvalidPrincipalArn index] is thrown exactly when the
    account id is valid, the bucket list is not empty, the principal at
    [index] fails its test and every principal before it passes;
    [InvalidBucketArn index] exactly when, the account id being valid, the
    principal list is not empty and all of it passes, the bucket at [index]
    fails and every bucket before it passes. *)
Theorem validateProps_first_failure (props : CrossAccountAccessStackProps) (index : nat) :
  (validateProps props = Some (InvalidPrincipalArn index) ↔
     ∃ accountId principals buckets arn,
       props = mkProps (Some accountId) (Some principals) (Some buckets)
       ∧ digits_anchored 12 accountId = true ∧ buckets ≠ []
       ∧ principals !! index = Some arn ∧ principal_ok accountId arn = false
       ∧ Forall (λ arn', principal_ok accountId arn' = true) (take index principals))
  ∧ (validateProps props = Some (InvalidBucketArn index) ↔
       ∃ accountId principals buckets arn,
         props = mkProps (Some accountId) (Some principals) (Some buckets)
         ∧ digits_anchored 12 accountId = true ∧ principals ≠ []
         ∧ Forall (λ arn', principal_ok accountId arn' = true) principals
         ∧ buckets !! index = Some arn ∧ bucket_ok arn = false
         ∧ Forall (λ arn', bucket_ok arn' = true) (take index buckets)).
Proof.
  split; split.
  - intros H.
    destruct (validateProps_arn_error _ _ H) as (accountId & principals & buckets & -> & Hid & Hp & Hb);
      [eauto|].
    rewrite validateProps_checks in H by done.
    destruct (forEach_throws (principal_ok accountId) principals 0) as [i|] eqn:Hps.
    + injection H as ->.
      apply forEach_throws_Some in Hps as (j & arn & -> & Hj & Hfail & Hall).
      by exists accountId, principals, buckets, arn.
    + by destruct (forEach_throws bucket_ok buckets 0).
  - intros (accountId & principals & buckets & arn & -> & Hid & Hb & Hj & Hfail & Hall).
    rewrite validateProps_checks; [|done| |done].
    + by rewrite (proj2 (forEach_throws_Some _ _ 0 index)) by (by exists index, arn).
    + intros ->. by rewrite lookup_nil in Hj.
  - intros H.
    destruct (validateProps_arn_error _ _ H) as (accountId & principals & buckets & -> & Hid & Hp & Hb);
      [eauto|].
    rewrite validateProps_checks in H by done.
    destruct (forEach_throws (principal_ok accountId) principals 0) as [i|] eqn:Hps;
      [discriminate|].
    apply forEach_throws_None in Hps.
    destruct (forEach_throws bucket_ok buckets 0) as [i|] eqn:Hbs; [|discriminate].
    injection H as ->.
    apply forEach_throws_Some in Hbs as (j & arn & -> & Hj & Hfail & Hall).
    by exists accountId, principals, buckets, arn.
  - intros (accountId & principals & buckets & arn & -> & Hid & Hp & Hps & Hj & Hfail & Hall).
    rewrite validateProps_checks; [|done..|].
    + rewrite (proj2 (forEach_throws_None _ _ 0) Hps).
      by rewrite (proj2 (forEach_throws_Some _ _ 0 index)) by (by exists index, arn).
    + intros ->. by rewrite lookup_nil in Hj.
Qed.

(** X3: the principal test does not tie the ARN to the account: an IAM ARN
    that has the account id anywhere after the prefix passes, whatever is in
    its account field. With a valid account id and valid buckets, a list
    holding only such an ARN is accepted. *)
Theorem validateProps_foreign_account (accountId x y : list N) (buckets : list (list N)) :
  digits_anchored 12 accountId = true →
  buckets ≠ [] → Forall (λ arn, bucket_ok arn = true) buckets →
  validateProps
    (mkProps (Some accountId)
             (Some [lit "arn:aws:iam::" ++ x ++ accountId ++ y])
             (Some buckets)) = None.
Proof.
  intros Hid Hb Hbs. rewrite validateProps_checks by done.
  assert (principal_ok accountId (lit "arn:aws:iam::" ++ x ++ accountId ++ y) = true) as Hok.
  { unfold principal_ok. apply andb_true_iff. split.
    - apply startsWith_spec. by eexists.
    - apply includes_spec. exists (lit "arn:aws:iam::" ++ x), y. by rewrite <-app_assoc. }
  cbn [forEach_throws]. rewrite Hok.
  by rewrite (proj2 (forEach_throws_None bucket_ok buckets 0) Hbs).
Qed.

Lemma validateProps_foreign_account_witness :
  validateProps
    (mkProps (Some (lit "123456789012"))
             (Some [lit "arn:aws:iam::" ++ lit "999999999999:user/u" ++ lit "123456789012" ++ []])
             (Some [lit "arn:aws:s3:::test-bucket"])) = None.
Proof.
  apply (validateProps_foreign_account (lit "123456789012") (lit "999999999999:user/u") []
           [lit "arn:aws:s3:::test-bucket"]).
  - vm_compute. reflexivity.
  - discriminate.
  - repeat constructor.
Defined.

(** ** What the handler sends *)

Lemma requests_app (j1 j2 : list Event) :
  requests (j1 ++ j2) = requests j1 ++ requests j2.
Proof. apply omap_app. Qed.

Lemma sent_app (j1 j2 : list Event) : sent (j1 ++ j2) = sent j1 ++ sent j2.
Proof. apply omap_app. Qed.

Lemma sends_only_lift {A : Type} (ok : Command → Prop) (o : Outcome A) :
  sends_only ok 0 (lift o).
Proof. intros w. exists []. by rewrite app_nil_r. Qed.

Lemma sends_only_mono {A : Type} (ok : Command → Prop) (n n' : nat) (m : M A) :
  (n ≤ n')%nat → sends_only ok n m → sends_only ok n' m.
Proof.
  intros Hn Hm w. destruct (Hm w) as (new & ? & ? & ? & ?).
  exists new. repeat split; [done..|lia|done].
Qed.

Lemma sends_only_bind {A B : Type} (ok : Command → Prop) (n1 n2 : nat)
    (m : M A) (k : A → M B) :
  sends_only ok n1 m → (∀ a, sends_only ok n2 (k a)) →
  sends_only ok (n1 + n2) (bind m k).
Proof.
  intros Hm Hk w. unfold bind.
  destruct (Hm w) as (new1 & Hj1 & Hok1 & Hlen1 & Hst1).
  destruct (m w) as [[a|e] w1]; cbn in *.
  - destruct (Hk a w1) as (new2 & Hj2 & Hok2 & Hlen2 & Hst2).
    exists (new1 ++ new2). rewrite Hj2, Hj1, requests_app, sent_app, length_app.
    repeat split.
    + by rewrite app_assoc.
    + by apply Forall_app.
    + lia.
    + rewrite Hst2, Hst1. unfold replay. by rewrite foldl_app.
  - exists new1. repeat split; [done..|lia|done].
Qed.

Lemma sends_only_record (ok : Command → Prop) (e : Event) :
  (∀ c st, e ≠ Sent c st) → (∀ c, e ≠ Lost c) → sends_only ok 0 (record e).
Proof.
  intros Hs Hl w. exists [e]. cbn.
  destruct e as [| |c after|c]; cbn; try by repeat split.
  - by destruct (Hs c after).
  - by destruct (Hl c).
Qed.

Lemma sends_only_randomBytes (ok : Command → Prop) (n : nat) :
  sends_only ok 0 (randomBytes n).
Proof.
  intros w. exists []. unfold randomBytes. case_decide; cbn; by rewrite app_nil_r.
Qed.

Lemma sends_only_client_send (ok : Command → Prop) (c : Command) :
  ok c → sends_only ok 1 (client_send c).
Proof.
  intros Hc w. unfold client_send.
  destruct (faults w) as [|[] rest].
  - destruct (store_answer c (store w)) as [answer st] eqn:Ha.
    exists [Sent c st]. cbn. rewrite Ha. repeat split; [by repeat constructor|lia].
  - destruct (store_answer c (store w)) as [answer st] eqn:Ha.
    exists [Sent c st]. cbn. rewrite Ha. repeat split; [by repeat constructor|lia].
  - exists [Lost c]. cbn. repeat split; [by repeat constructor|lia].
  - destruct (store_answer c (store w)) as [answer st] eqn:Ha.
    exists [Sent c st]. cbn. rewrite Ha. repeat split; [by repeat constructor|lia].
Qed.

Lemma sends_only_handler (JSON_parse : list N → option js_value) (event : RotationEvent) :
  sends_only (addresses event)
    (if decide (Step event = lit "finishSecret") then 2
     else if decide (Step event ∈ steps_with_requests) then 1 else 0)
    (handler JSON_parse event).
Proof.
  unfold handler.
  set (n := if decide (Step event = lit "finishSecret") then _ else _).
  apply (sends_only_mono _ (n + 0) n); [lia|].
  apply sends_only_bind; [|intros _; apply sends_only_lift]. subst n.
  destruct (decide (Step event = lit "createSecret")) as [Hc|Hc].
  { rewrite decide_False by (rewrite Hc; by vm_compute).
    rewrite decide_True by (rewrite Hc; unfold steps_with_requests; repeat constructor).
    apply (sends_only_bind _ 0 1).
    - apply (sends_only_bind _ 0 0); [apply sends_only_randomBytes|]. intros rv.
      apply (sends_only_bind _ 0 0); [by apply sends_only_record|]. intros _.
      apply sends_only_lift.
    - intros candidate. apply (sends_only_bind _ 1 0); [|intros _; apply sends_only_lift].
      by apply sends_only_client_send. }
  destruct (decide (Step event = lit "setSecret")) as [Hs|Hs].
  { rewrite decide_False by (rewrite Hs; by vm_compute).
    rewrite decide_False; [apply sends_only_lift|].
    rewrite Hs. intros H. apply list_elem_of_In in H. vm_compute in H.
    intuition discriminate. }
  destruct (decide (Step event = lit "testSecret")) as [Ht|Ht].
  { rewrite decide_False by (rewrite Ht; by vm_compute).
    rewrite decide_True by (rewrite Ht; unfold steps_with_requests; repeat constructor).
    apply (sends_only_bind _ 1 0); [by apply sends_only_client_send|]. intros response.
    destruct (SecretString response) as [[|c s]|]; try apply sends_only_lift.
    destruct (JSON_parse (c :: s)); [|apply sends_only_lift].
    apply (sends_only_bind _ 0 0); [apply sends_only_lift|]. intros v.
    apply (sends_only_bind _ 0 0); [by apply sends_only_record|]. intros _.
    destruct (validateExternalId v); apply sends_only_lift. }
  destruct (decide (Step event = lit "finishSecret")) as [Hf|Hf].
  { apply (sends_only_bind _ 1 1).
    - apply sends_only_client_send. cbn. eauto.
    - intros _. destruct (truthy (PreviousVersionId event)) eqn:Hp.
      + apply (sends_only_bind _ 1 0); [|intros _; apply sends_only_lift].
        apply sends_only_client_send. cbn. eauto 10.
      + eapply sends_only_mono; [|apply sends_only_lift]. lia. }
  rewrite decide_False; [apply sends_only_lift|].
  intros H. apply list_elem_of_In in H. cbn in H. intuition.
Qed.

Lemma handler_journal_app (JSON_parse : list N → option js_value)
    (event : RotationEvent) (w : World) (new : list Event) :
  journal (handler JSON_parse event w).2 = journal w ++ new →
  handler_journal JSON_parse event w = new.
Proof. intros H. unfold handler_journal. by rewrite H, drop_app_length. Qed.

(** X4: every request the handler sends is on the secret of the event and
    is one of four: a put of a new version of the token staged [AWSPENDING],
    a read of that version at [AWSPENDING], a move of [AWSCURRENT] onto it, a
    removal of [AWSPENDING] from a truthy previous version. It sends at most
    two requests for [finishSecret], at most one for [createSecret] and
    [testSecret], none for any other step; it only adds to the journal. *)
Theorem handler_requests (JSON_parse : list N → option js_value)
    (event : RotationEvent) (w : World) :
  journal (handler JSON_parse event w).2
    = journal w ++ handler_journal JSON_parse event w
  ∧ Forall (addresses event) (requests (handler_journal JSON_parse event w))
  ∧ (length (requests (handler_journal JSON_parse event w))
     ≤ if decide (Step event = lit "finishSecret") then 2
       else if decide (Step event ∈ steps_with_requests) then 1 else 0)%nat.
Proof.
  destruct (sends_only_handler JSON_parse event w) as (new & Hj & Hok & Hlen & _).
  rewrite (handler_journal_app _ _ _ _ Hj). done.
Qed.

Lemma store_answer_other_secret (c : Command) (st : gmap (list N) Secret) (sid : list N) :
  command_SecretId c ≠ sid → (store_answer c st).2 !! sid = st !! sid.
Proof.
  intros Hne.
  destruct c as [sid' token str labels|sid' vid label|sid' label moveTo removeFrom];
    unfold store_answer; cbn in Hne.
  - destruct (st !! sid') as [s|]; [|done].
    destruct (versions s !! token); [done|]. cbn. by rewrite lookup_insert_ne.
  - destruct (st !! sid') as [s|]; [|done].
    destruct (versions s !! vid); [|done]. by case_decide.
  - destruct (st !! sid') as [s|]; [|done].
    destruct moveTo as [v|].
    + destruct (versions s !! v); [|done]. cbn. by rewrite lookup_insert_ne.
    + destruct removeFrom as [u|]; [|done].
      case_decide; [|done]. cbn. by rewrite lookup_insert_ne.
Qed.

Lemma addresses_SecretId (event : RotationEvent) (c : Command) :
  addresses event c → command_SecretId c = SecretId event.
Proof. destruct c; cbn; naive_solver. Qed.

Lemma sent_requests (j : list Event) (ok : Command → Prop) :
  Forall ok (requests j) → Forall ok (sent j).
Proof.
  induction j as [|e j IH]; [done|].
  destruct e; cbn; try done; intros H; inversion H; subst; [constructor|]; auto.
Qed.

(** X5: an invocation for one secret leaves every other secret of the store
    as it was, whatever the step and however it ends. *)
Theorem handler_other_secrets (JSON_parse : list N → option js_value)
    (event : RotationEvent) (w : World) (sid : list N) :
  sid ≠ SecretId event →
  store (handler JSON_parse event w).2 !! sid = store w !! sid.
Proof.
  intros Hne.
  destruct (sends_only_handler JSON_parse event w) as (new & _ & Hok & _ & ->).
  apply sent_requests in Hok. revert Hok. generalize (store w). generalize (sent new).
  intros cs. induction cs as [|c cs IH]; intros st Hok; [done|].
  inversion Hok as [|? ? Hc Hcs]; subst.
  change (replay (c :: cs) st) with (replay cs (store_answer c st).2).
  rewrite IH by done.
  apply store_answer_other_secret. by rewrite (addresses_SecretId _ _ Hc).
Qed.

Lemma handler_other_secrets_witness :
  store (handler sample_JSON_parse (sample_event "createSecret")
           (mkWorld (<[lit "s2" := sample_secret]> (store sample_world))
                    (entropy sample_world) [] [])).2 !! lit "s2"
  = Some sample_secret.
Proof.
  rewrite (handler_other_secrets sample_JSON_parse (sample_event "createSecret") _ (lit "s2"))
    by (by vm_compute).
  by vm_compute.
Defined.

(** ** Steps that send nothing, and failures *)

Example handler_unknown_step :
  handler sample_JSON_parse (sample_event "rotateSecret") sample_world
  = (Thrown (InvalidStep (lit "rotateSecret")), sample_world).
Proof. vm_compute. reflexivity. Qed.

(** X6: for a step that is not [createSecret], [testSecret] or
    [finishSecret] the handler leaves the world exactly as it found it,
    journal included: it returns status 200 for [setSecret] and throws
    [Invalid step] with the name it was given for any other step. *)
Theorem handler_without_request (JSON_parse : list N → option js_value)
    (event : RotationEvent) (w : World) :
  Step event ∉ steps_with_requests →
  handler JSON_parse event w =
  (if decide (Step event = lit "setSecret")
   then Returned (mkRotationResponse 200)
   else Thrown (InvalidStep (Step event)), w).
Proof.
  intros Hstep. unfold steps_with_requests in Hstep.
  apply not_elem_of_cons in Hstep as [Hc Hstep].
  apply not_elem_of_cons in Hstep as [Ht Hstep].
  apply not_elem_of_cons in Hstep as [Hf _].
  unfold handler, bind.
  rewrite (decide_False (P := Step event = lit "createSecret")) by done.
  rewrite (decide_False (P := Step event = lit "testSecret")) by done.
  rewrite (decide_False (P := Step event = lit "finishSecret")) by done.
  by case_decide.
Qed.

Lemma handler_without_request_witness :
  handler sample_JSON_parse (sample_event "setSecret") sample_world_flaky
  = (Returned (mkRotationResponse 200), sample_world_flaky)
  ∧ handler sample_JSON_parse (sample_event "") sample_world_flaky
    = (Thrown (InvalidStep []), sample_world_flaky).
Proof.
  split.
  - rewrite (handler_without_request sample_JSON_parse (sample_event "setSecret")).
    + reflexivity.
    + intros H. apply list_elem_of_In in H. vm_compute in H. intuition discriminate.
  - rewrite (handler_without_request sample_JSON_parse (sample_event "")).
    + reflexivity.
    + intros H. apply list_elem_of_In in H. vm_compute in H. intuition discriminate.
Defined.

(** X7: a [createSecret] that throws. When the random source cannot deliver
    32 bytes it throws before any request is sent and the world is untouched.
    Otherwise it has drawn its 32 bytes and sent its one request, the put of
    the candidate at the stage [AWSPENDING]; the store is then as it was when
    the request never reached it or was refused, and holds the result of the
    put when only the answer was lost: an error of [createSecret] does not
    mean that nothing was stored. *)
Theorem createSecret_failure (sid token : list N) (w w' : World) (e : Error) :
  createSecret sid token w = (Thrown e, w') →
  let command :=
    PutSecretValueCommand sid token
      (JSON_stringify_SecretData (externalId_of (take 32 (entropy w)))) [AWSPENDING] in
  ((length (entropy w) < 32)%nat ∧ e = EntropySourceError ∧ w' = w)
  ∨ ((32 ≤ length (entropy w))%nat ∧ e ≠ EntropySourceError
     ∧ entropy w' = drop 32 (entropy w)
     ∧ requests (drop (length (journal w)) (journal w')) = [command]
     ∧ (store w' = store w ∧ head (faults w) ≠ Some ResponseLost
        ∨ (e = StoreUnavailable ∧ head (faults w) = Some ResponseLost
           ∧ store w' = (store_answer command (store w)).2))).
Proof.
  unfold createSecret, generateSecureExternalId, bind, randomBytes, record, ret, lift.
  destruct (decide (32 ≤ length (entropy w))%nat) as [Hlen|Hlen].
  - cbn. destruct (client_send _ _) as [[r|e'] w1] eqn:Hsend; [discriminate|].
    intros [= -> ->].
    apply client_send_Thrown in Hsend as (Hent & _ & Hcase). cbn in *.
    right. split; [done|].
    destruct Hcase as [(Ha & _ & Hn & Hst & Hj)|[(-> & Hh & Hst & Hj)|(-> & Hh & Hst & Hj)]].
    + repeat split.
      * intros ->. unfold store_answer in Ha.
        destruct (store w !! sid) as [s|]; [|discriminate].
        by destruct (versions s !! token).
      * done.
      * by rewrite Hj, <-app_assoc, drop_app_length.
      * by left.
    + repeat split; [done|done| |left; split; [done|by rewrite Hh]].
      by rewrite Hj, <-app_assoc, drop_app_length.
    + repeat split; [done|done| |by right].
      by rewrite Hj, <-app_assoc, drop_app_length.
  - intros [= <- <-]. left. split; [lia|done].
Qed.

Lemma createSecret_failure_witness :
  let w := mkWorld (store sample_world) (entropy sample_world) [ResponseLost] [] in
  let w' := (createSecret (lit "s1") (lit "t1") w).2 in
  let command :=
    PutSecretValueCommand (lit "s1") (lit "t1")
      (JSON_stringify_SecretData (externalId_of (take 32 (entropy w)))) [AWSPENDING] in
  ((length (entropy w) < 32)%nat ∧ StoreUnavailable = EntropySourceError ∧ w' = w)
  ∨ ((32 ≤ length (entropy w))%nat ∧ StoreUnavailable ≠ EntropySourceError
     ∧ entropy w' = drop 32 (entropy w)
     ∧ requests (drop (length (journal w)) (journal w')) = [command]
     ∧ (store w' = store w ∧ head (faults w) ≠ Some ResponseLost
        ∨ (StoreUnavailable = StoreUnavailable ∧ head (faults w) = Some ResponseLost
           ∧ store w' = (store_answer command (store w)).2))).
Proof.
  intros w w'.
  apply (createSecret_failure (lit "s1") (lit "t1") w w' StoreUnavailable).
  vm_compute. reflexivity.
Defined.

(** X8: a stored document without an [externalId]. When the pending payload
    parses to [null], [testSecret] throws a [TypeError] and the validator is
    not called; when it parses to any other value that has no [externalId]
    property (an object without the key, a number, a string, a boolean, an
    array), the validator is called on [undefined] and [testSecret] throws
    its "not found" error. *)
Theorem testSecret_without_externalId (JSON_parse : list N → option js_value)
    (sid token secretString : list N) (secretData : js_value) (w : World) :
  online 1 w →
  GetPending (store w) sid token = Some (Some secretString) →
  secretString ≠ [] →
  JSON_parse secretString = Some secretData →
  let result := testSecret JSON_parse sid token w in
  let missing :=
    result.1 = Thrown (ValidationError Missing)
    ∧ validated (journal result.2) = validated (journal w) ++ [JUndefined] in
  match secretData with
  | JNull | JUndefined =>
      result.1 = Thrown TypeError
      ∧ validated (journal result.2) = validated (journal w)
  | JObject fields => Forall (λ kv, kv.1 ≠ lit "externalId") fields → missing
  | _ => missing
  end.
Proof.
  intros Hon Hpend Hne Hparse result missing. subst result missing.
  rewrite testSecret_online by done. rewrite Hpend.
  destruct secretString as [|c s]; [done|]. rewrite Hparse.
  destruct secretData as [| | | | | |fields]; cbn;
    try (by rewrite validated_app, app_nil_r);
    try (by rewrite !validated_app, <-app_assoc).
  intros Hkey.
  destruct (list_find _ fields) as [[i [k v]]|] eqn:Hfind.
  - apply list_find_Some in Hfind as (Hi & Hk & _).
    apply (proj1 (Forall_lookup _ _) Hkey) in Hi. by destruct Hi.
  - cbn. by rewrite !validated_app, <-app_assoc.
Qed.

Lemma testSecret_without_externalId_witness :
  let w := mkWorld {[ lit "s1" := mkSecret {[ lit "t1" := Some (lit "{}") ]}
                                           {[ AWSPENDING := lit "t1" ]} ]} [] [] [] in
  let parse := λ s : list N, if decide (s = lit "{}") then Some (JObject []) else None in
  (testSecret parse (lit "s1") (lit "t1") w).1 = Thrown (ValidationError Missing).
Proof.
  intros w parse.
  apply (testSecret_without_externalId parse (lit "s1") (lit "t1") (lit "{}")
           (JObject []) w).
  - constructor.
  - by vm_compute.
  - discriminate.
  - reflexivity.
  - constructor.
Defined.

(** ** The image of the generator *)

Lemma characters_NoDup : NoDup characters.
Proof. apply (bool_decide_unpack _). by vm_compute. Qed.

Lemma symbol_of_singleton (b : byte) :
  ∃ c, symbol_of b = [c]
       ∧ characters !! N.to_nat (Byte.to_N b `mod` 62) = Some c.
Proof.
  unfold symbol_of, charAt. rewrite length_characters.
  change (N.of_nat 62) with 62.
  assert (Hlt : (N.to_nat (Byte.to_N b `mod` 62) < length characters)%nat).
  { rewrite length_characters. pose proof (N.mod_lt (Byte.to_N b) 62). lia. }
  destruct (lookup_lt_is_Some_2 _ _ Hlt) as [c Hc]. exists c. by rewrite Hc.
Qed.

Lemma symbol_of_eq (b b' : byte) :
  symbol_of b = symbol_of b' ↔ Byte.to_N b `mod` 62 = Byte.to_N b' `mod` 62.
Proof.
  destruct (symbol_of_singleton b) as (c & Hs & Hc).
  destruct (symbol_of_singleton b') as (c' & Hs' & Hc').
  rewrite Hs, Hs'. split.
  - intros [= <-]. pose proof (NoDup_lookup _ _ _ _ characters_NoDup Hc Hc'). lia.
  - intros Heq. rewrite Heq in Hc. congruence.
Qed.

Lemma symbols_join_eq (rv rv' : list byte) :
  length rv = length rv' →
  mjoin (symbol_of <$> rv) = mjoin (symbol_of <$> rv') ↔
  Forall2 (λ b b', symbol_of b = symbol_of b') rv rv'.
Proof.
  revert rv'. induction rv as [|b rv IH]; intros [|b' rv'] Hlen; try discriminate.
  - split; [constructor | done].
  - cbn. rewrite Forall2_cons, <-IH by (cbn in Hlen; lia).
    destruct (symbol_of_singleton b) as (c & -> & _).
    destruct (symbol_of_singleton b') as (c' & -> & _). cbn. split.
    + intros H. injection H as Hc Hrest. split; [by f_equal | exact Hrest].
    + intros [Hc Hrest]. injection Hc as Hc. f_equal; [exact Hc | exact Hrest].
Qed.

Lemma byte_selecting_symbol (c : N) :
  c ∈ characters → ∃ b, byte_selecting c = Some b ∧ symbol_of b = [c].
Proof.
  intros Hc.
  assert (Hall : forallb (λ c, match byte_selecting c with
                              | Some b => bool_decide (symbol_of b = [c])
                              | None => false
                              end) characters = true) by (by vm_compute).
  rewrite forallb_forall in Hall. apply list_elem_of_In, Hall in Hc.
  destruct (byte_selecting c) as [b|]; [|discriminate].
  exists b. split; [done|]. by apply bool_decide_eq_true in Hc.
Qed.

Lemma byte_selecting_join (s : list N) :
  Forall (λ c, c ∈ characters) s →
  length (omap byte_selecting s) = length s
  ∧ mjoin (symbol_of <$> omap byte_selecting s) = s.
Proof.
  induction 1 as [|c s Hc _ [IHlen IHjoin]]; [done|].
  destruct (byte_selecting_symbol c Hc) as (b & Hb & Hsym).
  change (omap byte_selecting (c :: s))
    with (match byte_selecting c with
          | Some y => y :: omap byte_selecting s
          | None => omap byte_selecting s
          end).
  rewrite Hb. split.
  - cbn [length]. by rewrite IHlen.
  - change (mjoin (symbol_of <$> b :: omap byte_selecting s))
      with (symbol_of b ++ mjoin (symbol_of <$> omap byte_selecting s)).
    by rewrite Hsym, IHjoin.
Qed.

(** X9: every string of 32 characters of the alphabet is an external id the
    generator can return: the bytes whose values are the indices of its
    characters in the alphabet produce it. *)
Theorem generator_reaches_every_id (s : list N) :
  length s = 32%nat → Forall (λ c, c ∈ characters) s →
  length (omap byte_selecting s) = 32%nat
  ∧ externalId_of (omap byte_selecting s) = s.
Proof.
  intros Hlen Hs. destruct (byte_selecting_join s Hs) as [Hl Hj].
  split; [congruence|]. rewrite externalId_of_join by congruence. done.
Qed.

Lemma generator_reaches_every_id_witness :
  externalId_of (omap byte_selecting (lit "Zz9Zz9Zz9Zz9Zz9Zz9Zz9Zz9Zz9Zz9Zz"))
  = lit "Zz9Zz9Zz9Zz9Zz9Zz9Zz9Zz9Zz9Zz9Zz".
Proof.
  apply (generator_reaches_every_id (lit "Zz9Zz9Zz9Zz9Zz9Zz9Zz9Zz9Zz9Zz9Zz")).
  - reflexivity.
  - apply Forall_forall. intros c Hc. apply list_elem_of_In.
    apply list_elem_of_In in Hc. vm_compute in Hc. vm_compute. tauto.
Defined.

(** X10: two buffers of 32 random bytes give the same external id exactly
    when their bytes agree modulo 62, position by position: the 62 symbols
    are distinct, and a byte counts only through its remainder. *)
Theorem generator_collisions (randomValues randomValues' : list byte) :
  length randomValues = 32%nat → length randomValues' = 32%nat →
  externalId_of randomValues = externalId_of randomValues' ↔
  Forall2 (λ b b', Byte.to_N b `mod` 62 = Byte.to_N b' `mod` 62)
          randomValues randomValues'.
Proof.
  intros Hlen Hlen'. rewrite !externalId_of_join by done.
  rewrite symbols_join_eq by congruence.
  split; intros H; (eapply Forall2_impl; [exact H|]); intros b b'; apply symbol_of_eq.
Qed.

Lemma generator_collisions_witness :
  externalId_of (replicate 32 x00) = externalId_of (replicate 32 x3e).
Proof.
  apply (generator_collisions (replicate 32 x00) (replicate 32 x3e));
    [reflexivity..|].
  repeat constructor.
Defined.

(** ** One whole rotation *)

Lemma handler_createSecret (JSON_parse : list N → option js_value)
    (sid token : list N) (prev : option (list N)) (w : World) :
  handler JSON_parse (mkRotationEvent sid token (lit "createSecret") prev) w =
  match createSecret sid token w with
  | (Returned _, w') => (Returned (mkRotationResponse 200), w')
  | (Thrown e, w') => (Thrown e, w')
  end.
Proof.
  unfold handler. cbn [SecretId ClientRequestToken Step PreviousVersionId].
  rewrite decide_True by done. unfold bind.
  by destruct (createSecret sid token w) as [[[]|e] w'].
Qed.

Lemma handler_setSecret (JSON_parse : list N → option js_value)
    (sid token : list N) (prev : option (list N)) (w : World) :
  handler JSON_parse (mkRotationEvent sid token (lit "setSecret") prev) w =
  (Returned (mkRotationResponse 200), w).
Proof.
  unfold handler. cbn [SecretId ClientRequestToken Step PreviousVersionId].
  case_decide as Hd; [by vm_compute in Hd|]. by rewrite decide_True by done.
Qed.

Lemma handler_finishSecret (JSON_parse : list N → option js_value)
    (sid token : list N) (prev : option (list N)) (w : World) :
  handler JSON_parse (mkRotationEvent sid token (lit "finishSecret") prev) w =
  match finishSecret sid token prev w with
  | (Returned _, w') => (Returned (mkRotationResponse 200), w')
  | (Thrown e, w') => (Thrown e, w')
  end.
Proof.
  unfold handler. cbn [SecretId ClientRequestToken Step PreviousVersionId].
  repeat (case_decide as Hd; [by vm_compute in Hd|]).
  case_decide; [|done]. unfold bind.
  by destruct (finishSecret sid token prev w) as [[[]|e] w'].
Qed.

Lemma online_le (n m : nat) (w : World) : (n ≤ m)%nat → online m w → online n w.
Proof.
  unfold online. intros Hle H.
  replace n with (n `min` m)%nat by lia. rewrite <-take_take.
  by apply Forall_take.
Qed.

(** With its requests delivered, [finishSecret] returns as soon as the
    store knows the version of the token; it leaves the versions as they
    were and [AWSCURRENT] on that version. *)
Lemma finishSecret_online (sid token : list N) (prev : option (list N))
    (w : World) (s : Secret) :
  online 2 w → store w !! sid = Some s → is_Some (versions s !! token) →
  ∃ w' s', finishSecret sid token prev w = (Returned tt, w')
           ∧ store w' !! sid = Some s'
           ∧ versions s' = versions s
           ∧ stages s' !! AWSCURRENT = Some token.
Proof.
  intros Hon Hs [p Htok].
  unfold finishSecret, bind.
  rewrite client_send_online by (by eapply online_le; [|exact Hon]; lia).
  unfold store_answer at 1 2 3. rewrite Hs, Htok. cbn [fst snd].
  destruct (truthy prev) eqn:Hp.
  - destruct (truthy_Some _ Hp) as [u ->].
    rewrite client_send_online by (by eapply online_tail).
    cbn [store]. erewrite store_answer_remove by apply lookup_insert_eq.
    cbn [fst snd versions stages]. unfold ret, lift.
    case_decide; (eexists _, _; split; [reflexivity|]); cbn [store];
      rewrite lookup_insert_eq; (split; [reflexivity|]); cbn.
    + rewrite lookup_delete_ne by (symmetry; apply AWSCURRENT_ne_AWSPENDING).
      by rewrite lookup_insert_eq.
    + by rewrite lookup_insert_eq.
  - unfold ret, lift. eexists _, _. split; [reflexivity|]. cbn [store].
    rewrite lookup_insert_eq. split; [reflexivity|]. cbn.
    by rewrite lookup_insert_eq.
Qed.

Lemma alnum_not_quote (externalId : list N) (c : N) :
  Forall (λ c, alnum c = true) externalId → alnum c = false → c ∉ externalId.
Proof.
  intros Hall Hc Hin. apply (proj1 (Forall_forall _ _) Hall) in Hin. congruence.
Qed.

Lemma sample_JSON_parse_SecretData : parses_SecretData sample_JSON_parse.
Proof.
  intros externalId Hall. unfold sample_JSON_parse, JSON_stringify_SecretData.
  set (opening := [123; 34] ++ lit "externalId" ++ [34; 58; 34]).
  set (closing := [34; 125]).
  replace ([123; 34] ++ lit "externalId" ++ [34; 58; 34] ++ externalId ++ closing)
    with (opening ++ externalId ++ closing)
    by (unfold opening; by rewrite <-!app_assoc).
  cbv zeta. rewrite take_app_length, drop_app_length.
  replace (length (externalId ++ closing) - 2)%nat with (length externalId)
    by (rewrite length_app; cbn; lia).
  rewrite take_app_length, drop_app_length.
  rewrite decide_True; [done|].
  repeat split; by apply alnum_not_quote.
Qed.

(** X11: one rotation, step by step. When [JSON.parse] reads back what
    [JSON.stringify] wrote, the store knows the secret and has no version of
    the token yet, the random source has 32 bytes and the four requests are
    delivered, the handler returns status 200 for [createSecret],
    [setSecret], [testSecret] and [finishSecret] in this order, and the
    current stage of the secret then holds the generated external id, which
    the validator accepts. *)
Theorem rotation_completes (JSON_parse : list N → option js_value)
    (sid token : list N) (prev : option (list N)) (w : World) (s : Secret) :
  parses_SecretData JSON_parse →
  store w !! sid = Some s → versions s !! token = None →
  (32 ≤ length (entropy w))%nat → online 4 w →
  let event := λ step, mkRotationEvent sid token step prev in
  let externalId := externalId_of (take 32 (entropy w)) in
  ∃ w1 w3 w4,
    handler JSON_parse (event (lit "createSecret")) w
      = (Returned (mkRotationResponse 200), w1)
    ∧ handler JSON_parse (event (lit "setSecret")) w1
      = (Returned (mkRotationResponse 200), w1)
    ∧ handler JSON_parse (event (lit "testSecret")) w1
      = (Returned (mkRotationResponse 200), w3)
    ∧ handler JSON_parse (event (lit "finishSecret")) w3
      = (Returned (mkRotationResponse 200), w4)
    ∧ GetCurrent (store w4) sid = Some (Some (JSON_stringify_SecretData externalId))
    ∧ validateExternalId (JString externalId) = None.
Proof.
  intros Hparse Hs Hfresh Hlen Hon event externalId. subst event.
  destruct (externalId_of_form (take 32 (entropy w))) as [Hl Hall].
  fold externalId in Hl, Hall.
  assert (Hvalid : validateExternalId (JString externalId) = None).
  { apply validateExternalId_accepts. exists externalId. split; [done|].
    rewrite Hl. split; [lia|done]. }
  (* createSecret *)
  rewrite handler_createSecret.
  rewrite createSecret_online by (done || by eapply online_le; [|exact Hon]; lia).
  cbv zeta. fold externalId. erewrite store_answer_put by done. rewrite Hfresh.
  cbn [fst snd attach foldr].
  set (str := JSON_stringify_SecretData externalId).
  set (s1 := mkSecret (<[token := Some str]> (versions s))
                      (<[AWSPENDING := token]> (stages s))).
  set (w1 := mkWorld (<[sid := s1]> (store w)) _ _ _).
  assert (Hs1 : store w1 !! sid = Some s1) by apply lookup_insert_eq.
  assert (Hon1 : online 3 w1) by (by eapply online_tail).
  assert (Hpend : GetPending (store w1) sid token = Some (Some str)).
  { unfold GetPending. rewrite Hs1. cbn. rewrite lookup_insert_eq.
    rewrite decide_True by done. by rewrite lookup_insert_eq. }
  (* testSecret *)
  assert (Htest : ∃ w3, testSecret JSON_parse sid token w1 = (Returned tt, w3)
                        ∧ store w3 = store w1 ∧ faults w3 = tail (faults w1)).
  { rewrite testSecret_online by (by eapply online_le; [|exact Hon1]; lia).
    rewrite Hpend. cbv zeta.
    assert (Hstr : ∃ c rest, str = c :: rest) by (by eexists _, _).
    destruct Hstr as (c & rest & Hstr). rewrite Hstr, <-Hstr.
    unfold str at 1. rewrite Hparse by done.
    unfold get_externalId. cbn [list_find fst]. rewrite decide_True by done.
    cbn. rewrite Hvalid. by eexists. }
  destruct Htest as (w3 & Htest & Hst3 & Hf3).
  (* finishSecret *)
  assert (Hon3 : online 2 w3) by (by eapply online_tail).
  destruct (finishSecret_online sid token prev w3 s1 Hon3) as (w4 & s4 & Hfin & Hs4 & Hv4 & Hc4).
  { by rewrite Hst3. }
  { unfold s1. cbn. by rewrite lookup_insert_eq. }
  exists w1, w3, w4. split; [reflexivity|].
  split; [apply handler_setSecret|].
  split; [by rewrite handler_testSecret, Htest|].
  split; [by rewrite handler_finishSecret, Hfin|].
  split; [|done].
  unfold GetCurrent. rewrite Hs4. cbn. rewrite Hc4. cbn. rewrite Hv4.
  unfold s1. cbn. by rewrite lookup_insert_eq.
Qed.

Lemma rotation_completes_witness :
  ∃ w1 w3 w4,
    handler sample_JSON_parse (sample_event "createSecret") sample_world
      = (Returned (mkRotationResponse 200), w1)
    ∧ handler sample_JSON_parse (sample_event "setSecret") w1
      = (Returned (mkRotationResponse 200), w1)
    ∧ handler sample_JSON_parse (sample_event "testSecret") w1
      = (Returned (mkRotationResponse 200), w3)
    ∧ handler sample_JSON_parse (sample_event "finishSecret") w3
      = (Returned (mkRotationResponse 200), w4)
    ∧ GetCurrent (store w4) (lit "s1")
      = Some (Some (JSON_stringify_SecretData
                      (externalId_of (take 32 (entropy sample_world)))))
    ∧ validateExternalId (JString (externalId_of (take 32 (entropy sample_world)))) = None.
Proof.
  apply (rotation_completes sample_JSON_parse (lit "s1") (lit "t1") (Some (lit "v0"))
           sample_world sample_secret).
  - exact sample_JSON_parse_SecretData.
  - by vm_compute.
  - by vm_compute.
  - vm_compute. lia.
  - constructor.
Defined.

(** ** What [finishSecret] does not check *)

Lemma finishSecret_no_call (seen : list js_value) (sid token : list N)
    (prev : option (list N)) :
  preserves (calls_are seen) (finishSecret sid token prev).
Proof.
  apply preserves_bind; [apply client_send_no_call|]. intros _.
  destruct (truthy prev); [|apply preserves_lift].
  apply preserves_bind; [apply client_send_no_call|]. intros _.
  apply preserves_lift.
Qed.

(** X12: [finishSecret] promotes whatever version the token names. With its
    requests delivered and a version of the token in the store, it returns
    and the current stage resolves to the payload of that version, whatever
    the payload is and whether or not [testSecret] ran: [finishSecret] does
    not read the payload and does not call the validator. *)
Theorem finishSecret_promotes_unvalidated (sid token : list N) (prev : option (list N))
    (w : World) (s : Secret) (payload : option (list N)) :
  online 2 w → store w !! sid = Some s → versions s !! token = Some payload →
  ∃ w', finishSecret sid token prev w = (Returned tt, w')
        ∧ GetCurrent (store w') sid = Some payload
        ∧ validated (journal w') = validated (journal w).
Proof.
  intros Hon Hs Htok.
  destruct (finishSecret_online sid token prev w s Hon Hs) as (w' & s' & Hfin & Hs' & Hv & Hc);
    [by rewrite Htok|].
  exists w'. split; [done|]. split.
  - unfold GetCurrent. rewrite Hs'. cbn. rewrite Hc. cbn. by rewrite Hv.
  - pose proof (finishSecret_no_call (validated (journal w)) sid token prev w eq_refl) as H.
    by rewrite Hfin in H.
Qed.

Lemma finishSecret_promotes_unvalidated_witness :
  let w := mkWorld {[ lit "s1" := mkSecret {[ lit "v0" := Some (lit "old");
                                              lit "t1" := Some (lit "not json") ]}
                                           {[ AWSCURRENT := lit "v0" ]} ]} [] [] [] in
  ∃ w', finishSecret (lit "s1") (lit "t1") (Some (lit "v0")) w = (Returned tt, w')
        ∧ GetCurrent (store w') (lit "s1") = Some (Some (lit "not json"))
        ∧ validated (journal w') = validated (journal w).
Proof.
  intros w.
  apply (finishSecret_promotes_unvalidated (lit "s1") (lit "t1") (Some (lit "v0")) w
           (mkSecret {[ lit "v0" := Some (lit "old"); lit "t1" := Some (lit "not json") ]}
                     {[ AWSCURRENT := lit "v0" ]})).
  - constructor.
  - by vm_compute.
  - by vm_compute.
Defined.
